(** * WaykiChain conditional-UTXO transaction: validation and execution

    A shallow embedding of [src/tx/coinutxotx.cpp]: the prior-output
    resolver [GetUtxoTxFromChain], the condition evaluator
    [CheckUtxoCondition], the admission check [CCoinUtxoTx::CheckTx] and the
    ledger mutation [CCoinUtxoTx::ExecuteTx].

    Conventions of the embedding.
    - [uint64_t] values are [Z] with the wrap-around written out ([u64]);
      the C [int] of line 276 is [Z] reduced by [to_int].
    - Heights, ids and amounts are non-negative in the program; their C++
      declarations live in headers outside this file.
    - A member function returning [bool] is a [Step bool]: it threads the
      execution context (cache wrapper and validation state) and either
      continues with a value, or leaves the function ([Return b]), or
      faults ([Crash f]), or reaches a point from which C++ defines no
      behaviour ([Undefined u]); nothing is said about what follows such a
      point.
    - Parameters and loop variables are modelled as they are declared: a
      [shared_ptr] passed by value does not change the caller's pointer,
      and a loop variable declared [auto] is a copy of the container's
      element.
    - Everything the file calls but does not define (caches, macros, hash
      functions) is either a field of the class [Collaborators] or a small
      definition modelled from the specification and marked as such. *)

From Stdlib Require Import ZArith.
From stdpp Require Import gmap strings list.

Local Open Scope string_scope.
Local Open Scope Z_scope.

(** ** Machine integers *)

(** [uint64_t] arithmetic is modulo 2^64. *)
Definition u64 (z : Z) : Z := z mod 2 ^ 64.

(** Conversion of a [uint64_t] to the 32-bit [int] (two's complement). *)
Definition to_int (z : Z) : Z := (z + 2 ^ 31) mod 2 ^ 32 - 2 ^ 31.

(** [abs] on [int]; at [INT_MIN] the result stays [INT_MIN]. *)
Definition int_abs (d : Z) : Z := to_int (Z.abs d).

(** ** Data model *)

Definition uint256 := Z.
Definition TxID := uint256.
Definition TokenSymbol := string.

Inductive CUserID :=
| CNullID
| CRegID (regid : Z)
| CKeyID (keyid : Z)
| CPubKey (pubkey : Z).

#[global] Instance CUserID_eq_dec : EqDecision CUserID.
Proof. solve_decision. Defined.

#[global] Instance CUserID_countable : Countable CUserID.
Proof.
  refine (inj_countable'
    (fun u => match u with
              | CNullID => inl ()
              | CRegID r => inr (inl r)
              | CKeyID k => inr (inr (inl k))
              | CPubKey p => inr (inr (inr p))
              end)
    (fun s => match s with
              | inl _ => CNullID
              | inr (inl r) => CRegID r
              | inr (inr (inl k)) => CKeyID k
              | inr (inr (inr p)) => CPubKey p
              end) _).
  by intros [].
Defined.

(** [CUserID::IsEmpty]. *)
Definition IsEmpty (u : CUserID) : bool :=
  match u with CNullID => true | _ => false end.

(** The tags the switch of [CheckUtxoCondition] names, and any other value
    of the enumeration (taken by the [default] branch). *)
Inductive UtxoCondType :=
| P2SA | P2MA | P2PH | CLAIM_LOCK | RECLAIM_LOCK
| OTHER_COND_TYPE (tag : Z).

(** The dynamic class of a condition object, the target of the
    [dynamic_cast]s. *)
Inductive CondClass :=
| CSingleAddressCondOut (uid : CUserID)
| CMultiSignAddressCondOut (uid : CUserID)
| CPasswordHashLockCondIn (password : string)
| CPasswordHashLockCondOut (password_hash : uint256)
| CClaimLockCondOut (height : Z)
| CReClaimLockCondOut (height : Z)
| CUtxoCondBase.

Record CUtxoCond := mkCond {
  cond_type : UtxoCondType;
  cond_obj : CondClass
}.

Record CUtxoInput := mkInput {
  prev_utxo_txid : TxID;
  prev_utxo_out_index : nat;
  in_conds : list CUtxoCond
}.

Record CUtxoOutput := mkOutput {
  coin_amount : Z;
  out_conds : list CUtxoCond
}.

(** The legacy single-output member [utxo] that the receipt of line 289
    and [ToString] read. *)
Record CLegacyUtxo := mkLegacy {
  to_uid : CUserID;
  utxo_coin_symbol : TokenSymbol
}.

Record CCoinUtxoTx := mkTx {
  txUid : CUserID;
  coin_symbol : TokenSymbol;
  fee_symbol : TokenSymbol;
  llFees : Z;
  valid_height : Z;
  vins : list CUtxoInput;
  vouts : list CUtxoOutput;
  utxo : CLegacyUtxo;
  memo : string
}.

(** ** Ledger state *)

Record CAccount := mkAccount {
  keyid : CUserID;
  regid : option (Z * Z);
  owner_pubkey : Z;
  free_amount : gmap TokenSymbol Z
}.

Inductive ReceiptCode := TRANSFER_UTXO_COINS.

Record CReceipt := mkReceipt {
  from_uid : CUserID;
  receipt_to_uid : CUserID;
  receipt_symbol : TokenSymbol;
  send_amount : Z;
  code : ReceiptCode
}.

Record CCacheWrapper := mkCw {
  accountCache : gmap CUserID CAccount;
  txUtxoCache : gset (TxID * nat);
  txReceiptCache : gmap TxID (list CReceipt)
}.

Inductive RejectCode := REJECT_INVALID | READ_ACCOUNT_FAIL | UPDATE_ACCOUNT_FAIL.

(** Modelled from the spec: [CValidationState] is declared in [main.h]. A
    rejection carries a reason code; [DoS] records it, adds the penalty and
    marks the state invalid. *)
Record CValidationState := mkState {
  invalid : bool;
  nDoS : Z;
  chRejectCode : option RejectCode;
  strRejectReason : string
}.

Definition state_DoS (level : Z) (rc : RejectCode) (reason : string)
    (st : CValidationState) : CValidationState :=
  {| invalid := true; nDoS := nDoS st + level;
     chRejectCode := Some rc; strRejectReason := reason |}.

Record CTxExecuteContext := mkCtx {
  height : Z;
  index : Z;
  pCw : CCacheWrapper;
  pState : CValidationState
}.

Definition set_state (c : CTxExecuteContext) (st : CValidationState) :=
  {| height := height c; index := index c; pCw := pCw c; pState := st |}.

Definition set_cw (c : CTxExecuteContext) (cw : CCacheWrapper) :=
  {| height := height c; index := index c; pCw := cw; pState := pState c |}.

(** ** Control flow *)

Inductive Fault :=
| NullDereference   (* [->] through a null [shared_ptr] *)
| BadCast           (* [dynamic_cast] to a reference of the wrong class *)
| AssertFailed      (* [assert(false)] *)
| IOError.          (* the [runtime_error] of line 28 *)

(** Points from which the language defines no behaviour. *)
Inductive UB :=
| MissingReturn     (* the end of a [bool] function reached without [return] *)
| OutOfBoundsRead.  (* unchecked [operator[]] past the end of a vector *)

Inductive Exit :=
| Return (b : bool)
| Crash (f : Fault)
| Undefined (u : UB).

(** A piece of a function body: it continues with a value ([inl]) or
    leaves the function ([inr]). *)
Definition Step (A : Type) : Type :=
  CTxExecuteContext → (A + Exit) * CTxExecuteContext.

Definition pure {A} (a : A) : Step A := fun c => (inl a, c).

Definition bind {A B} (m : Step A) (k : A → Step B) : Step B :=
  fun c => match m c with
           | (inl a, c') => k a c'
           | (inr e, c') => (inr e, c')
           end.

Notation "'let!' x ':=' m 'in' k" := (bind m (fun x => k))
  (at level 10, x name, m at level 200, k at level 200, only parsing).
Notation "'run!' m 'in' k" := (bind m (fun _ => k))
  (at level 10, m at level 200, k at level 200, only parsing).

(** [return b;] *)
Definition return_ {A} (b : bool) : Step A := fun c => (inr (Return b), c).

(** [return state.DoS(level, ERRORMSG(...), code, reason);]: [ERRORMSG]
    is [false]. *)
Definition DoS {A} (level : Z) (rc : RejectCode) (reason : string) : Step A :=
  fun c => (inr (Return false), set_state c (state_DoS level rc reason (pState c))).

Definition crash {A} (f : Fault) : Step A := fun c => (inr (Crash f), c).

Definition undefined {A} (u : UB) : Step A := fun c => (inr (Undefined u), c).

Definition get_height : Step Z := fun c => (inl (height c), c).
Definition get_index : Step Z := fun c => (inl (index c), c).

(** A call statement whose value is not used: control continues in the
    caller whatever the callee returned; an exception propagates, and so
    does undefined behaviour in the callee. *)
Definition call_discard {A} (m : Step A) : Step unit :=
  fun c => match m c with
           | (inr (Crash f), c') => (inr (Crash f), c')
           | (inr (Undefined u), c') => (inr (Undefined u), c')
           | (_, c') => (inl (), c')
           end.

(** The result of a whole call: a body that ends in [return b]. *)
Definition run (m : Step bool) (c : CTxExecuteContext) : Exit * CTxExecuteContext :=
  match m c with
  | (inl b, c') => (Return b, c')
  | (inr e, c') => (e, c')
  end.

(** The copy that [for (auto cond : conds)] makes of an element of a
    condition vector (lines 77, 194 and 206). The vectors are declared in
    headers outside this file; their element type is taken to be the base
    class [CUtxoCond], the type the evaluator takes its condition as, so
    the copy has the tag of the element and the base class as its class. *)
Definition loop_copy (cond : CUtxoCond) : CUtxoCond :=
  {| cond_type := cond_type cond; cond_obj := CUtxoCondBase |}.

(** [dynamic_cast<T&>(cond)]: throws [std::bad_cast] on another class. *)
Definition dynamic_cast {T} (sel : CondClass → option T) (cond : CUtxoCond) : Step T :=
  match sel (cond_obj cond) with
  | Some t => pure t
  | None => crash BadCast
  end.

Definition as_CSingleAddressCondOut (o : CondClass) : option CUserID :=
  match o with CSingleAddressCondOut u => Some u | _ => None end.
Definition as_CMultiSignAddressCondOut (o : CondClass) : option CUserID :=
  match o with CMultiSignAddressCondOut u => Some u | _ => None end.
Definition as_CPasswordHashLockCondIn (o : CondClass) : option string :=
  match o with CPasswordHashLockCondIn p => Some p | _ => None end.
Definition as_CPasswordHashLockCondOut (o : CondClass) : option uint256 :=
  match o with CPasswordHashLockCondOut h => Some h | _ => None end.
Definition as_CClaimLockCondOut (o : CondClass) : option Z :=
  match o with CClaimLockCondOut h => Some h | _ => None end.
Definition as_CReClaimLockCondOut (o : CondClass) : option Z :=
  match o with CReClaimLockCondOut h => Some h | _ => None end.

(** ** External collaborators *)

Definition CDiskTxPos := Z.

(** The block store behind [pCdMan->pBlockCache] and [OpenBlockFile]: the
    transaction index and what deserialises at a position ([None]: the
    read throws). *)
Record ChainStore := mkChain {
  IsTxIndex : bool;
  txIndex : gmap TxID CDiskTxPos;
  blockFile : gmap CDiskTxPos CCoinUtxoTx
}.

(** What [coinutxotx.cpp] uses and other files define. The macros of lines
    146-148 and 219 and [CheckFee] answer [None] when they pass and the
    reason they reject with otherwise. The three [*_write_ok] fields say
    whether a write to the respective store succeeds. *)
Class Collaborators := {
  Hash : string → uint256;
  ToString : CUserID → string;
  GetHash : CCoinUtxoTx → TxID;
  chain : ChainStore;
  disable_tx_pre_stable_coin_release : Z → option string;
  check_tx_memo : string → option string;
  check_tx_regid_or_pubkey : CUserID → option string;
  CheckFee : CCoinUtxoTx → Z → option string;
  IsFullyValid : Z → bool;
  GetTxMinFee : Z → TokenSymbol → option Z;
  check_tx_signature : CCoinUtxoTx → Z → option string;
  regid_assign_ok : bool;
  utxo_write_ok : TxID * nat → bool;
  account_write_ok : CAccount → bool;
  receipt_write_ok : TxID → bool
}.

Section Program.
Context `{E : Collaborators}.

(** ** [GetUtxoTxFromChain], lines 12-32

    The result is the returned [bool] and what the caller's pointer holds
    after the call. Line 12 takes [pTx] as a [shared_ptr] by value: the
    transaction read on line 25 goes to the function's own copy, and the
    caller's pointer is after the call what it was before, on every
    path. *)
Definition GetUtxoTxFromChain (txid : TxID) (pTx : option CCoinUtxoTx)
    : Step (bool * option CCoinUtxoTx) :=
  if negb (IsTxIndex chain) then pure (false, pTx)
  else
    match txIndex chain !! txid with
    | Some txPos =>
        match blockFile chain !! txPos with
        | Some tx => pure (true, pTx)
        | None => crash IOError
        end
    | None => pure (true, pTx)
    end.

(** ** [CheckUtxoCondition], lines 34-142 *)

(** The loop of lines 77-89 over the unlocking conditions of the input;
    [cond] is the copy the loop makes of each element. *)
Fixpoint P2PH_scan (password_hash : uint256) (txUid : CUserID)
    (conds : list CUtxoCond) (found : bool) : Step bool :=
  match conds with
  | [] => pure found
  | element :: rest =>
      let cond := loop_copy element in
      match cond_type cond with
      | P2PH =>
          let! inCond := dynamic_cast as_CPasswordHashLockCondIn cond in
          let text := inCond ++ ToString txUid in
          let hash := Hash text in
          if bool_decide (password_hash ≠ hash)
          then DoS 100 REJECT_INVALID "secret-mismatches-err"
          else P2PH_scan password_hash txUid rest true
      | _ => P2PH_scan password_hash txUid rest found
      end
  end.

(** A [break] leaves the switch; nothing follows the switch (lines
    141-142), so control reaches the end of a function that returns [bool]
    without a [return] statement, which is undefined behaviour. *)
Definition break_ : Step unit := undefined MissingReturn.

Definition CheckUtxoCondition (isCheckInput : bool)
    (prevUtxoTxUid txUid : CUserID) (input : CUtxoInput) (cond : CUtxoCond)
    : Step unit :=
  match cond_type cond with
  | P2SA =>
      let! theCond := dynamic_cast as_CSingleAddressCondOut cond in
      if isCheckInput then
        if bool_decide (theCond ≠ txUid)
        then DoS 100 REJECT_INVALID "uid-mismatches-err"
        else break_
      else
        if IsEmpty theCond
        then DoS 100 REJECT_INVALID "uid-empty-err"
        else break_
  | P2MA =>
      let! theCond := dynamic_cast as_CMultiSignAddressCondOut cond in
      if isCheckInput then
        break_
      else
        if IsEmpty theCond
        then DoS 100 REJECT_INVALID "uid-empty-err"
        else break_
  | P2PH =>
      let! theCond := dynamic_cast as_CPasswordHashLockCondOut cond in
      if isCheckInput then
        let! found := P2PH_scan theCond txUid (in_conds input) false in
        if negb found
        then DoS 100 REJECT_INVALID "cond-mismatches-err"
        else break_
      else
        if bool_decide (theCond = 0)
        then DoS 100 REJECT_INVALID "empty-hash-lock-err"
        else break_
  | CLAIM_LOCK =>
      let! theCond := dynamic_cast as_CClaimLockCondOut cond in
      if isCheckInput then
        let! h := get_height in
        if h <=? theCond
        then DoS 100 REJECT_INVALID "too-early-to-claim-err"
        else break_
      else
        if theCond =? 0
        then DoS 100 REJECT_INVALID "claim-lock-empty-err"
        else break_
  | RECLAIM_LOCK =>
      let! theCond := dynamic_cast as_CReClaimLockCondOut cond in
      if isCheckInput then
        if bool_decide (prevUtxoTxUid = txUid) then
          let! h := get_height in
          if (theCond =? 0) || (h <=? theCond)
          then DoS 100 REJECT_INVALID "too-early-to-claim-err"
          else break_
        else break_
      else
        if theCond =? 0
        then DoS 100 REJECT_INVALID "reclaim-lock-empty-err"
        else break_
  | OTHER_COND_TYPE _ =>
      DoS 100 REJECT_INVALID "cond-type-err"
  end.

(** ** Stores behind the cache wrapper *)

(** Modelled from the spec: the Account Ledger, [getAccount(identity)] and
    [saveAccount(Account)]; the cache is a finite map from identity to
    account record and an account is written back under the identity it
    carries. *)
Definition GetAccount (uid : CUserID) : Step (option CAccount) :=
  fun c => (inl (accountCache (pCw c) !! uid), c).

Definition SaveAccount (account : CAccount) : Step bool :=
  fun c =>
    if account_write_ok account
    then (inl true,
          set_cw c {| accountCache := <[keyid account := account]> (accountCache (pCw c));
                      txUtxoCache := txUtxoCache (pCw c);
                      txReceiptCache := txReceiptCache (pCw c) |})
    else (inl false, c).

(** Modelled from the spec: [getFreeBalance(symbol)] and
    [adjustFreeBalance(symbol, delta)] of an account; subtracting more
    than the free balance fails. *)
Definition GetBalance (symbol : TokenSymbol) (account : CAccount) : Z :=
  default 0 (free_amount account !! symbol).

Inductive BalanceOpType := ADD_FREE | SUB_FREE.

Definition set_free (account : CAccount) (symbol : TokenSymbol) (v : Z) : CAccount :=
  {| keyid := keyid account; regid := regid account;
     owner_pubkey := owner_pubkey account;
     free_amount := <[symbol := v]> (free_amount account) |}.

Definition OperateBalance (symbol : TokenSymbol) (op : BalanceOpType) (value : Z)
    (account : CAccount) : option CAccount :=
  match op with
  | ADD_FREE => Some (set_free account symbol (u64 (GetBalance symbol account + value)))
  | SUB_FREE =>
      if GetBalance symbol account <? value then None
      else Some (set_free account symbol (GetBalance symbol account - value))
  end.

(** Modelled from the spec: step 1 of the execution pipeline, "assign the
    sender's on-chain identity if not yet bound"; [CBaseTx::GenerateRegID]
    is not in this file. The identity is bound in the loaded account,
    which line 291 persists. *)
Definition GenerateRegID (uid : CUserID) (account : CAccount)
    : Step (bool * CAccount) :=
  match uid with
  | CPubKey pk =>
      if negb regid_assign_ok then pure (false, account)
      else
        let! h := get_height in
        let! i := get_index in
        pure (true,
              {| keyid := keyid account;
                 regid := match regid account with
                          | Some r => Some r
                          | None => Some (h, i)
                          end;
                 owner_pubkey := pk;
                 free_amount := free_amount account |})
  | _ => pure (true, account)
  end.

(** Modelled from the spec: the UTXO Index, [contains(key)], [insert(key)]
    and [remove(key)] on keys [(transactionId, outputIndex)]; presence
    means unspent. A write that fails leaves the index as it was. *)
Definition GetUtxoTx (key : TxID * nat) : Step bool :=
  fun c => (inl (bool_decide (key ∈ txUtxoCache (pCw c))), c).

Definition DelUtoxTx (key : TxID * nat) : Step bool :=
  fun c =>
    if utxo_write_ok key
    then (inl true,
          set_cw c {| accountCache := accountCache (pCw c);
                      txUtxoCache := txUtxoCache (pCw c) ∖ {[ key ]};
                      txReceiptCache := txReceiptCache (pCw c) |})
    else (inl false, c).

Definition SetUtxoTx (key : TxID * nat) : Step bool :=
  fun c =>
    if utxo_write_ok key
    then (inl true,
          set_cw c {| accountCache := accountCache (pCw c);
                      txUtxoCache := {[ key ]} ∪ txUtxoCache (pCw c);
                      txReceiptCache := txReceiptCache (pCw c) |})
    else (inl false, c).

(** Modelled from the spec: the Receipt Store, [append(transactionId,
    receipts)]. *)
Definition SetTxReceipts (txid : TxID) (receipts : list CReceipt) : Step bool :=
  fun c =>
    if receipt_write_ok txid
    then (inl true,
          set_cw c {| accountCache := accountCache (pCw c);
                      txUtxoCache := txUtxoCache (pCw c);
                      txReceiptCache := <[txid := receipts]> (txReceiptCache (pCw c)) |})
    else (inl false, c).

(** [p->...]: a null pointer has nothing to read. *)
Definition deref {A} (p : option A) : Step A :=
  match p with Some a => pure a | None => crash NullDereference end.

(** [v[i]] on a vector: [operator[]] does no bounds check, and an index
    past the end is undefined behaviour. *)
Definition subscript {A} (v : list A) (i : nat) : Step A :=
  match v !! i with Some a => pure a | None => undefined OutOfBoundsRead end.

(** A macro or helper that rejects with its own reason. *)
Definition macro_check (verdict : option string) : Step unit :=
  match verdict with
  | None => pure ()
  | Some reason => DoS 100 REJECT_INVALID reason
  end.

(** ** [CCoinUtxoTx::CheckTx], lines 144-222 *)

(** Lines 145-158: the macros, the fee check, the public key and the
    sender account. *)
Definition CheckTx_prelude (tx : CCoinUtxoTx) : Step CAccount :=
  let! h := get_height in
  run! macro_check (disable_tx_pre_stable_coin_release h) in
  run! macro_check (check_tx_memo (memo tx)) in
  run! macro_check (check_tx_regid_or_pubkey (txUid tx)) in
  run! macro_check (CheckFee tx h) in
  run! (match txUid tx with
        | CPubKey pk =>
            if negb (IsFullyValid pk)
            then DoS 100 REJECT_INVALID "bad-publickey"
            else pure ()
        | _ => pure ()
        end) in
  let! o := GetAccount (txUid tx) in
  match o with
  | None => DoS 100 REJECT_INVALID "bad-getaccount"
  | Some srcAccount => pure srcAccount
  end.

(** Lines 160-170. *)
Definition CheckTx_size_limits (tx : CCoinUtxoTx) : Step unit :=
  if (100 <? length (vins tx))%nat
  then DoS 100 REJECT_INVALID "vins-size-too-large"
  else if (100 <? length (vouts tx))%nat
  then DoS 100 REJECT_INVALID "vouts-size-too-large"
  else if (length (vins tx) =? 0)%nat && (length (vouts tx) =? 0)%nat
  then DoS 100 REJECT_INVALID "utxo-empty-err"
  else pure ().

(** Lines 172-177. *)
Definition CheckTx_fee_floor (tx : CCoinUtxoTx) : Step unit :=
  let! h := get_height in
  match GetTxMinFee h (fee_symbol tx) with
  | None => crash AssertFailed
  | Some minFee =>
      let minerMinFees :=
        u64 ((2 * Z.of_nat (length (vins tx)) + Z.of_nat (length (vouts tx))) * minFee) in
      if llFees tx <? minerMinFees
      then DoS 100 REJECT_INVALID "bad-tx-fee-toosmall"
      else pure ()
  end.

(** Lines 194-195 and 206-207: the evaluator is called on the copy the
    loop makes of each condition, and its verdict is dropped. *)
Fixpoint CheckTx_conds (isCheckInput : bool) (prevUtxoTxUid txUid : CUserID)
    (input : CUtxoInput) (conds : list CUtxoCond) : Step unit :=
  match conds with
  | [] => pure ()
  | element :: rest =>
      let cond := loop_copy element in
      run! call_discard (CheckUtxoCondition isCheckInput prevUtxoTxUid txUid input cond) in
      CheckTx_conds isCheckInput prevUtxoTxUid txUid input rest
  end.

(** Lines 181-198. *)
Fixpoint CheckTx_vins (uid : CUserID) (ins : list CUtxoInput) (totalInAmount : Z)
    : Step Z :=
  match ins with
  | [] => pure totalInAmount
  | input :: rest =>
      let! r := GetUtxoTxFromChain (prev_utxo_txid input) None in
      let pPrevUtxoTx := r.2 in
      if negb r.1
      then DoS 100 REJECT_INVALID "failed-to-load-prev-utxo-err"
      else
        let! prevTx := deref pPrevUtxoTx in
        if (length (vouts prevTx) <? prev_utxo_out_index input + 1)%nat
        then DoS 100 REJECT_INVALID "prev-utxo-index-OOR-err"
        else
          let! prevOut := subscript (vouts prevTx) (prev_utxo_out_index input) in
          run! CheckTx_conds true (txUid prevTx) uid input (out_conds prevOut) in
          CheckTx_vins uid rest (u64 (totalInAmount + coin_amount prevOut))
  end.

(** Lines 200-210; the evaluator gets [CUserID()] and [CUtxoInput()]. *)
Fixpoint CheckTx_vouts (uid : CUserID) (outs : list CUtxoOutput) (totalOutAmount : Z)
    : Step Z :=
  match outs with
  | [] => pure totalOutAmount
  | output :: rest =>
      if coin_amount output =? 0
      then DoS 100 REJECT_INVALID "zero-output-amount-err"
      else
        run! CheckTx_conds false CNullID uid (mkInput 0 0 []) (out_conds output) in
        CheckTx_vouts uid rest (u64 (totalOutAmount + coin_amount output))
  end.

Definition CheckTx (tx : CCoinUtxoTx) : Step bool :=
  let! srcAccount := CheckTx_prelude tx in
  run! CheckTx_size_limits tx in
  run! CheckTx_fee_floor tx in
  let! totalInAmount := CheckTx_vins (txUid tx) (vins tx) 0 in
  let! totalOutAmount := CheckTx_vouts (txUid tx) (vouts tx) 0 in
  let accountBalance := GetBalance (coin_symbol tx) srcAccount in
  if u64 (accountBalance + totalInAmount) <? u64 (totalOutAmount + llFees tx)
  then DoS 100 REJECT_INVALID "insufficient-account-coin-amount"
  else
    let pubKey := match txUid tx with
                  | CPubKey pk => pk
                  | _ => owner_pubkey srcAccount
                  end in
    run! macro_check (check_tx_signature tx pubKey) in
    pure true.

(** ** [CCoinUtxoTx::ExecuteTx], lines 227-300 *)

Definition input_key (input : CUtxoInput) : TxID * nat :=
  (prev_utxo_txid input, prev_utxo_out_index input).

(** Lines 244-260. *)
Fixpoint ExecuteTx_vins (ins : list CUtxoInput) (totalInAmount : Z) : Step Z :=
  match ins with
  | [] => pure totalInAmount
  | input :: rest =>
      let! unspent := GetUtxoTx (input_key input) in
      if negb unspent
      then DoS 100 REJECT_INVALID "double-spend-prev-utxo-err"
      else
        let! r := GetUtxoTxFromChain (prev_utxo_txid input) None in
        let pPrevUtxoTx := r.2 in
        if negb r.1
        then DoS 100 REJECT_INVALID "failed-to-load-prev-utxo-err"
        else
          let! prevTx := deref pPrevUtxoTx in
          let! prevOut := subscript (vouts prevTx) (prev_utxo_out_index input) in
          let totalInAmount := u64 (totalInAmount + coin_amount prevOut) in
          let! deleted := DelUtoxTx (input_key input) in
          if negb deleted
          then DoS 100 REJECT_INVALID "del-prev-utxo-err"
          else ExecuteTx_vins rest totalInAmount
  end.

(** Lines 262-269; [i] is the position of the first output of [outs]. *)
Fixpoint ExecuteTx_vouts (hash : TxID) (outs : list CUtxoOutput) (i : nat)
    (totalOutAmount : Z) : Step Z :=
  match outs with
  | [] => pure totalOutAmount
  | output :: rest =>
      let totalOutAmount := u64 (totalOutAmount + coin_amount output) in
      let! set := SetUtxoTx (hash, i) in
      if negb set
      then DoS 100 REJECT_INVALID "set-utxo-err"
      else ExecuteTx_vouts hash rest (S i) totalOutAmount
  end.

(** Line 276: the subtraction is done in [uint64_t] and the result is
    stored in an [int]. *)
Definition compute_diff (totalInAmount totalOutAmount fees : Z) : Z :=
  to_int (u64 (u64 (totalInAmount - totalOutAmount) - fees)).

(** Lines 277-287; the [int] argument becomes the [uint64_t] parameter. *)
Definition reconcile (tx : CCoinUtxoTx) (diff : Z) (srcAccount : CAccount)
    : Step CAccount :=
  if diff <? 0 then
    match OperateBalance (coin_symbol tx) SUB_FREE (u64 (int_abs diff)) srcAccount with
    | None => DoS 100 UPDATE_ACCOUNT_FAIL "insufficient-fund-utxo"
    | Some a => pure a
    end
  else if 0 <? diff then
    match OperateBalance (coin_symbol tx) ADD_FREE (u64 diff) srcAccount with
    | None => DoS 100 UPDATE_ACCOUNT_FAIL "insufficient-fund-utxo"
    | Some a => pure a
    end
  else pure srcAccount.

Definition ExecuteTx (tx : CCoinUtxoTx) : Step bool :=
  let! o := GetAccount (txUid tx) in
  match o with
  | None => DoS 100 READ_ACCOUNT_FAIL "bad-read-accountdb"
  | Some srcAccount =>
      let! g := GenerateRegID (txUid tx) srcAccount in
      let srcAccount := g.2 in
      if negb g.1 then return_ false
      else
        let receipts : list CReceipt := [] in
        let! totalInAmount := ExecuteTx_vins (vins tx) 0 in
        let! totalOutAmount := ExecuteTx_vouts (GetHash tx) (vouts tx) 0%nat 0 in
        let accountBalance := GetBalance (coin_symbol tx) srcAccount in
        if u64 (accountBalance + totalInAmount) <? u64 (totalOutAmount + llFees tx)
        then DoS 100 REJECT_INVALID "insufficient-account-coin-amount"
        else
          let diff := compute_diff totalInAmount totalOutAmount (llFees tx) in
          let! srcAccount := reconcile tx diff srcAccount in
          let receipts :=
            (receipts ++ [mkReceipt (txUid tx) (to_uid (utxo tx))
                            (utxo_coin_symbol (utxo tx)) (u64 (int_abs diff))
                            TRANSFER_UTXO_COINS])%list in
          let! saved := SaveAccount srcAccount in
          if negb saved
          then DoS 100 UPDATE_ACCOUNT_FAIL "bad-read-accountdb"
          else
            let! stored :=
              (if (length receipts =? 0)%nat
               then pure true
               else SetTxReceipts (GetHash tx) receipts) in
            if negb stored
            then DoS 100 REJECT_INVALID "set-tx-receipt-failed"
            else pure true
  end.

End Program.

(** ** Verdicts *)

(** The piece [m] raises no rejection in context [c]: control continues
    and the context is untouched. *)
Definition accepts {A} (m : Step A) (c : CTxExecuteContext) : Prop :=
  ∃ a, m c = (inl a, c).

(** [m] leaves through [return state.DoS(100, ..., rc, reason)]. *)
Definition rejects_with {A} (m : Step A) (c : CTxExecuteContext)
    (rc : RejectCode) (reason : string) : Prop :=
  m c = (inr (Return false), set_state c (state_DoS 100 rc reason (pState c))).

Definition utxos (c : CTxExecuteContext) : gset (TxID * nat) := txUtxoCache (pCw c).
Definition accounts (c : CTxExecuteContext) : gmap CUserID CAccount := accountCache (pCw c).
Definition receipts_of (c : CTxExecuteContext) : gmap TxID (list CReceipt) :=
  txReceiptCache (pCw c).

(** The keys [(thisTxId, 0)], ..., [(thisTxId, n-1)] of [n] outputs,
    starting at position [i]. *)
Definition output_keys (hash : TxID) (i n : nat) : list (TxID * nat) :=
  (fun j => (hash, j)) <$> seq i n.

(** The checks of [CheckTx] that come before the size limits pass. *)
Definition prelude_passes `{Collaborators} (tx : CCoinUtxoTx) (c : CTxExecuteContext) : Prop :=
  ∃ srcAccount, CheckTx_prelude tx c = (inl srcAccount, c).

(** What the loops of [ExecuteTx] never touch. *)
Definition frame (c c' : CTxExecuteContext) : Prop :=
  height c' = height c ∧ index c' = index c
  ∧ accounts c' = accounts c ∧ receipts_of c' = receipts_of c.

(** The validation state of [c'] is the one of [c] after
    [state.DoS(100, ..., rc, reason)]. *)
Definition rejected_with (c c' : CTxExecuteContext) (rc : RejectCode) (reason : string)
    : Prop :=
  pState c' = state_DoS 100 rc reason (pState c).

(** The UTXO Index of [c'] is the one of [c] with the keys of the outputs
    at positions [0 .. j-1] of [tx] added. *)
Definition registered `{Collaborators} (tx : CCoinUtxoTx) (c c' : CTxExecuteContext)
    (j : nat) : Prop :=
  utxos c' = list_to_set (output_keys (GetHash tx) 0 j) ∪ utxos c.

(** Whether step 1 of [ExecuteTx] goes through; it does not depend on the
    account. *)
Definition regid_step_ok `{Collaborators} (uid : CUserID) : bool :=
  match uid with CPubKey _ => regid_assign_ok | _ => true end.

(** The free balance of the sender of [tx] in the account store. *)
Definition sender_free_balance (tx : CCoinUtxoTx) (c : CTxExecuteContext) : Z :=
  from_option (GetBalance (coin_symbol tx)) 0 (accounts c !! txUid tx).

(** ** Vocabulary for the properties of the whole file *)

(** The class the switch casts a condition of each tag to (lines 41, 57,
    73, 103 and 119); the [default] branch casts nothing. *)
Definition class_matches (cond : CUtxoCond) : bool :=
  match cond_type cond, cond_obj cond with
  | P2SA, CSingleAddressCondOut _ => true
  | P2MA, CMultiSignAddressCondOut _ => true
  | P2PH, CPasswordHashLockCondOut _ => true
  | CLAIM_LOCK, CClaimLockCondOut _ => true
  | RECLAIM_LOCK, CReClaimLockCondOut _ => true
  | OTHER_COND_TYPE _, _ => true
  | _, _ => false
  end.

(** The tag is none of the five kinds of the switch. *)
Definition unknown_tag (cond : CUtxoCond) : bool :=
  match cond_type cond with OTHER_COND_TYPE _ => true | _ => false end.

Definition tagged_P2PH (cond : CUtxoCond) : bool :=
  match cond_type cond with P2PH => true | _ => false end.

Definition sum_amounts (amounts : list Z) : Z := foldr Z.add 0 amounts.

Definition output_amounts (outs : list CUtxoOutput) : list Z := coin_amount <$> outs.

(** The fee floor of line 174 for a unit fee. *)
Definition fee_floor (tx : CCoinUtxoTx) (minFee : Z) : Z :=
  u64 ((2 * Z.of_nat (length (vins tx)) + Z.of_nat (length (vouts tx))) * minFee).

(** A piece of code changes nothing but the validation state. *)
Definition keeps_ledger {A} (m : Step A) : Prop :=
  ∀ c r c', m c = (r, c') →
            height c' = height c ∧ index c' = index c ∧ pCw c' = pCw c.

(** The context with another UTXO Index. *)
Definition with_utxos (c : CTxExecuteContext) (u : gset (TxID * nat)) : CTxExecuteContext :=
  set_cw c {| accountCache := accountCache (pCw c);
              txUtxoCache := u;
              txReceiptCache := txReceiptCache (pCw c) |}.

(** A piece of code runs the same way whatever the UTXO Index holds. *)
Definition utxo_blind {A} (m : Step A) : Prop :=
  ∀ c u, m (with_utxos c u) = ((m c).1, with_utxos (m c).2 u).

(** A piece of code never leaves its function through [return true]. *)
Definition never_returns_true {A} (m : Step A) : Prop :=
  ∀ c e c', m c = (inr e, c') → e ≠ Return true.

(** The receipt of line 289. *)
Definition transfer_receipt (tx : CCoinUtxoTx) (diff : Z) : CReceipt :=
  mkReceipt (txUid tx) (to_uid (utxo tx)) (utxo_coin_symbol (utxo tx))
    (u64 (int_abs diff)) TRANSFER_UTXO_COINS.

(** ** A concrete ledger

    One account, one historical transaction [prior] (id 7) with a
    claim-locked output of 500, and collaborators that let every external
    check pass. *)
Module Scenario.

Definition sender : CUserID := CRegID 1.

Definition acct (balance : Z) : CAccount :=
  mkAccount sender (Some (1, 1)) 55 {[ "WICC" := balance ]}.

Definition prior : CCoinUtxoTx :=
  mkTx (CRegID 2) "WICC" "WICC" 10000 5 []
    [mkOutput 500 [mkCond CLAIM_LOCK (CClaimLockCondOut 10)]]
    (mkLegacy CNullID "WICC") "".

Definition store : ChainStore := mkChain true {[ 7 := 1 ]} {[ 1 := prior ]}.

Definition world : Collaborators := {|
  Hash := fun s => Z.of_nat (String.length s) + 1;
  ToString := fun _ => "u";
  GetHash := fun tx => 1000 + valid_height tx;
  chain := store;
  disable_tx_pre_stable_coin_release := fun _ => None;
  check_tx_memo := fun _ => None;
  check_tx_regid_or_pubkey := fun _ => None;
  CheckFee := fun _ _ => None;
  IsFullyValid := fun _ => true;
  GetTxMinFee := fun _ _ => Some 100;
  check_tx_signature := fun _ _ => None;
  regid_assign_ok := true;
  utxo_write_ok := fun _ => true;
  account_write_ok := fun _ => true;
  receipt_write_ok := fun _ => true
|}.

Definition fresh : CValidationState := mkState false 0 None "".

Definition ledger (balance : Z) : CCacheWrapper :=
  mkCw {[ sender := acct balance ]} {[ (7, 0%nat) ]} ∅.

Definition ctx (h balance : Z) : CTxExecuteContext :=
  mkCtx h 0 (ledger balance) fresh.

Definition owned_by (u : CUserID) : CUtxoCond := mkCond P2SA (CSingleAddressCondOut u).

Definition transfer (fee : Z) (ins : list CUtxoInput) (outs : list CUtxoOutput)
    : CCoinUtxoTx :=
  mkTx sender "WICC" "WICC" fee 20 ins outs (mkLegacy CNullID "WICC") "".

Definition spend_prior : CUtxoInput := mkInput 7 0 [].

Definition claim_lock (h : Z) : CUtxoCond := mkCond CLAIM_LOCK (CClaimLockCondOut h).
Definition reclaim_lock (h : Z) : CUtxoCond := mkCond RECLAIM_LOCK (CReClaimLockCondOut h).

(** Spends the prior output (500) and creates one output of 300. *)
Definition pay : CCoinUtxoTx :=
  transfer 10000 [spend_prior] [mkOutput 300 [owned_by (CRegID 9)]].

(** A condition with a tag that is none of the five kinds. *)
Definition odd_lock : CUtxoCond := mkCond (OTHER_COND_TYPE 0) CUtxoCondBase.

(** No input, one output of 300 under [odd_lock]. *)
Definition odd : CCoinUtxoTx := transfer 10000 [] [mkOutput 300 [odd_lock]].

(** No input, one output of 300 without conditions. *)
Definition plain : CCoinUtxoTx := transfer 10000 [] [mkOutput 300 []].

(** No input, outputs of 300 and 100 without conditions, fee 50. *)
Definition deposit : CCoinUtxoTx :=
  transfer 50 [] [mkOutput 300 []; mkOutput 100 []].


(** Creates, from the account balance alone, an output without conditions
    that together with the fee amounts to 2^32. *)
Definition mint : CCoinUtxoTx :=
  transfer 10000 [] [mkOutput (2 ^ 32 - 10000) []].

(** The example of the specification: balance 1000, one input of 500,
    outputs of 300 and 100, fee 50. *)
Definition spec_example : CCoinUtxoTx :=
  transfer 50 [spend_prior]
    [mkOutput 300 [owned_by (CRegID 9)]; mkOutput 100 [owned_by (CRegID 8)]].

End Scenario.

(** ** More concrete cases on the ledger of [Scenario] *)
Module Cases.
Import Scenario.

(** An input that carries the password proof "pw". *)
Definition with_proof : CUtxoInput :=
  mkInput 7 0 [mkCond P2PH (CPasswordHashLockCondIn "pw")].

(** A condition tagged as a single-address lock that is a claim lock. *)
Definition mislabelled : CUtxoCond := mkCond P2SA (CClaimLockCondOut 3).

End Cases.

(** ** The condition evaluator *)

Section Evaluator.
Context `{E : Collaborators}.

Lemma claim_lock_input_eval (c : CTxExecuteContext) prevUid uid input (lockHeight : Z) :
  CheckUtxoCondition true prevUid uid input (mkCond CLAIM_LOCK (CClaimLockCondOut lockHeight)) c
  = if height c <=? lockHeight
    then (inr (Return false),
          set_state c (state_DoS 100 REJECT_INVALID "too-early-to-claim-err" (pState c)))
    else (inr (Undefined MissingReturn), c).
Proof.
  unfold CheckUtxoCondition, bind, dynamic_cast, get_height; simpl.
  by destruct (height c <=? lockHeight).
Qed.

Lemma reclaim_lock_input_eval (c : CTxExecuteContext) prevUid uid input (lockHeight : Z) :
  CheckUtxoCondition true prevUid uid input
    (mkCond RECLAIM_LOCK (CReClaimLockCondOut lockHeight)) c
  = if bool_decide (prevUid = uid) && ((lockHeight =? 0) || (height c <=? lockHeight))
    then (inr (Return false),
          set_state c (state_DoS 100 REJECT_INVALID "too-early-to-claim-err" (pState c)))
    else (inr (Undefined MissingReturn), c).
Proof.
  unfold CheckUtxoCondition, bind, dynamic_cast, get_height; simpl.
  destruct (bool_decide (prevUid = uid)); simpl; [|done].
  by destruct ((lockHeight =? 0) || (height c <=? lockHeight)).
Qed.

(** The scan for a password proof: the cast of line 80 is made on the
    copy of the element, so the first element tagged [P2PH] ends the scan
    with [bad_cast]; without such an element the scan keeps [found]. *)
Lemma P2PH_scan_eval hash uid conds :
  ∀ found c,
    P2PH_scan hash uid conds found c
    = if existsb tagged_P2PH conds
      then (inr (Crash BadCast), c)
      else (inl found, c).
Proof.
  induction conds as [|element rest IH]; intros found c; [done|].
  simpl. unfold tagged_P2PH at 1.
  destruct (cond_type element); simpl; try apply IH. done.
Qed.

Lemma CheckUtxoCondition_no_return_true isCheckInput prevUid uid input cond c :
  (CheckUtxoCondition isCheckInput prevUid uid input cond c).1 ≠ inr (Return true).
Proof.
  unfold CheckUtxoCondition, bind, dynamic_cast, break_.
  destruct (cond_type cond); simpl; [| | | | |done].
  - destruct (as_CSingleAddressCondOut _); simpl; [|done].
    destruct isCheckInput; [destruct (bool_decide _)|destruct (IsEmpty _)]; done.
  - destruct (as_CMultiSignAddressCondOut _); simpl; [|done].
    destruct isCheckInput; [|destruct (IsEmpty _)]; done.
  - destruct (as_CPasswordHashLockCondOut _) as [h|]; simpl; [|done].
    destruct isCheckInput; [|destruct (bool_decide _); done].
    rewrite P2PH_scan_eval. destruct (existsb _ _); done.
  - destruct (as_CClaimLockCondOut _); simpl; [|done].
    destruct isCheckInput; [destruct (_ <=? _)|destruct (_ =? _)]; done.
  - destruct (as_CReClaimLockCondOut _); simpl; [|done].
    destruct isCheckInput; [|destruct (_ =? _); done].
    destruct (bool_decide _); [|done].
    destruct (_ || _); done.
Qed.

(** C7: on the input side a ClaimLock is rejected with the
    too-early-to-claim reason ("too-early-to-claim-err") when the chain
    height is at most the lock height, in particular at
    [height = lockHeight]. When the height is greater, in particular at
    [height = lockHeight + 1], the evaluator does not return Accept: it
    leaves the switch and reaches the end of the function without a
    [return]. *)
Theorem claim_lock_input_boundary (c : CTxExecuteContext) prevUid uid input
    (lockHeight : Z) :
  let eval := CheckUtxoCondition true prevUid uid input
                (mkCond CLAIM_LOCK (CClaimLockCondOut lockHeight)) in
  (height c ≤ lockHeight →
   rejects_with eval c REJECT_INVALID "too-early-to-claim-err")
  ∧ (lockHeight < height c → eval c = (inr (Undefined MissingReturn), c))
  ∧ (height c = lockHeight →
     rejects_with eval c REJECT_INVALID "too-early-to-claim-err")
  ∧ (height c = lockHeight + 1 → eval c = (inr (Undefined MissingReturn), c)).
Proof.
  intros eval. unfold rejects_with, eval. rewrite claim_lock_input_eval.
  destruct (Z.leb_spec (height c) lockHeight); split_and!; try done; lia.
Qed.

(** C8: the owner who reclaims a ReclaimLock-ed output too early (lock
    height zero, or chain height at most the lock height) is rejected with
    the reason of the ClaimLock, "too-early-to-claim-err", and not with
    "too-early-to-reclaim". *)
Theorem reclaim_lock_rejects_with_claim_reason (c : CTxExecuteContext) uid input
    (lockHeight : Z) :
  let eval := CheckUtxoCondition true uid uid input
                (mkCond RECLAIM_LOCK (CReClaimLockCondOut lockHeight)) in
  lockHeight = 0 ∨ height c ≤ lockHeight →
  rejects_with eval c REJECT_INVALID "too-early-to-claim-err"
  ∧ ¬ rejects_with eval c REJECT_INVALID "too-early-to-reclaim".
Proof.
  intros eval Hearly.
  assert (Hrej : rejects_with eval c REJECT_INVALID "too-early-to-claim-err").
  { unfold rejects_with, eval. rewrite reclaim_lock_input_eval.
    rewrite bool_decide_eq_true_2 by done. simpl.
    destruct (Z.eqb_spec lockHeight 0); simpl; [done|].
    destruct (Z.leb_spec (height c) lockHeight); [done|lia]. }
  split; [exact Hrej|].
  unfold rejects_with in *. rewrite Hrej. intros [=].
Qed.

(** The other paths of the ReclaimLock on the input side, another spender
    or the owner late enough, reach the end of the function without a
    [return]. *)
Lemma reclaim_lock_other_paths (c : CTxExecuteContext) prevUid uid input
    (lockHeight : Z) :
  prevUid ≠ uid ∨ (lockHeight ≠ 0 ∧ lockHeight < height c) →
  CheckUtxoCondition true prevUid uid input
    (mkCond RECLAIM_LOCK (CReClaimLockCondOut lockHeight)) c
  = (inr (Undefined MissingReturn), c).
Proof.
  intros Hcase. rewrite reclaim_lock_input_eval.
  destruct Hcase as [Hne|[Hnz Hlt]].
  - by rewrite bool_decide_eq_false_2.
  - destruct (Z.eqb_spec lockHeight 0); [done|].
    destruct (Z.leb_spec (height c) lockHeight); [lia|].
    by rewrite andb_false_r.
Qed.

End Evaluator.

Lemma claim_lock_input_boundary_witness :
  rejects_with (CheckUtxoCondition (E := Scenario.world) true (CRegID 2) Scenario.sender
                  Scenario.spend_prior (Scenario.claim_lock 10))
    (Scenario.ctx 10 0) REJECT_INVALID "too-early-to-claim-err"
  ∧ CheckUtxoCondition (E := Scenario.world) true (CRegID 2) Scenario.sender
      Scenario.spend_prior (Scenario.claim_lock 10) (Scenario.ctx 11 0)
    = (inr (Undefined MissingReturn), Scenario.ctx 11 0).
Proof.
  split.
  - destruct (claim_lock_input_boundary (E := Scenario.world) (Scenario.ctx 10 0)
                (CRegID 2) Scenario.sender Scenario.spend_prior 10) as (_ & _ & Hat & _).
    apply Hat. reflexivity.
  - destruct (claim_lock_input_boundary (E := Scenario.world) (Scenario.ctx 11 0)
                (CRegID 2) Scenario.sender Scenario.spend_prior 10) as (_ & _ & _ & Hnext).
    apply Hnext. reflexivity.
Defined.

Lemma reclaim_lock_rejects_with_claim_reason_witness :
  rejects_with (CheckUtxoCondition (E := Scenario.world) true Scenario.sender Scenario.sender
                  Scenario.spend_prior (Scenario.reclaim_lock 10))
    (Scenario.ctx 5 0) REJECT_INVALID "too-early-to-claim-err"
  ∧ ¬ rejects_with (CheckUtxoCondition (E := Scenario.world) true Scenario.sender
                      Scenario.sender Scenario.spend_prior (Scenario.reclaim_lock 10))
        (Scenario.ctx 5 0) REJECT_INVALID "too-early-to-reclaim".
Proof.
  apply (reclaim_lock_rejects_with_claim_reason (E := Scenario.world) (Scenario.ctx 5 0)
           Scenario.sender Scenario.spend_prior 10).
  right. simpl. lia.
Defined.

(** C10: the accept paths of the evaluator end in [break] and the function
    body ends after the switch: no call ever returns [true]. Claiming at
    height 11 an output locked until height 10 reaches the end of the
    function without a [return] instead of returning a value. *)
Theorem CheckUtxoCondition_accept_path_has_no_return :
  (∀ (E : Collaborators) isCheckInput prevUid uid input cond c,
     (CheckUtxoCondition isCheckInput prevUid uid input cond c).1 ≠ inr (Return true))
  ∧ CheckUtxoCondition (E := Scenario.world) true (CRegID 2) Scenario.sender
      Scenario.spend_prior (Scenario.claim_lock 10) (Scenario.ctx 11 0)
    = (inr (Undefined MissingReturn), Scenario.ctx 11 0).
Proof.
  split; [|reflexivity].
  intros E. apply CheckUtxoCondition_no_return_true.
Qed.

(** ** The rejections of the other kinds *)

Section EvaluatorRules.
Context `{E : Collaborators}.

(** X1: on the input side a single-address lock whose owner is not the
    sender of the spending transaction is rejected with
    "uid-mismatches-err". *)
Theorem P2SA_input_rule (c : CTxExecuteContext) prevUid uid input (owner : CUserID) :
  owner ≠ uid →
  rejects_with (CheckUtxoCondition true prevUid uid input
                  (mkCond P2SA (CSingleAddressCondOut owner))) c
    REJECT_INVALID "uid-mismatches-err".
Proof.
  intros Hne. unfold rejects_with, CheckUtxoCondition, bind, dynamic_cast. simpl.
  by rewrite bool_decide_eq_true_2.
Qed.

(** X2: on the output side a lock with a degenerate payload is rejected
    with the reason of its kind: an empty owner for the two address locks
    ("uid-empty-err"), a zero hash ("empty-hash-lock-err"), a zero height
    ("claim-lock-empty-err", "reclaim-lock-empty-err"). *)
Theorem output_side_rules (c : CTxExecuteContext) prevUid uid input :
  let eval := CheckUtxoCondition false prevUid uid input in
  (∀ owner, IsEmpty owner = true →
            rejects_with (eval (mkCond P2SA (CSingleAddressCondOut owner))) c
              REJECT_INVALID "uid-empty-err")
  ∧ (∀ owner, IsEmpty owner = true →
              rejects_with (eval (mkCond P2MA (CMultiSignAddressCondOut owner))) c
                REJECT_INVALID "uid-empty-err")
  ∧ rejects_with (eval (mkCond P2PH (CPasswordHashLockCondOut 0))) c
      REJECT_INVALID "empty-hash-lock-err"
  ∧ rejects_with (eval (mkCond CLAIM_LOCK (CClaimLockCondOut 0))) c
      REJECT_INVALID "claim-lock-empty-err"
  ∧ rejects_with (eval (mkCond RECLAIM_LOCK (CReClaimLockCondOut 0))) c
      REJECT_INVALID "reclaim-lock-empty-err".
Proof.
  intros eval. split_and!; try reflexivity.
  - intros owner Hempty. unfold rejects_with, eval, CheckUtxoCondition, bind, dynamic_cast.
    simpl. by rewrite Hempty.
  - intros owner Hempty. unfold rejects_with, eval, CheckUtxoCondition, bind, dynamic_cast.
    simpl. by rewrite Hempty.
Qed.

(** X4: a password-hash lock cannot be opened. On the input side the
    evaluator rejects it with "cond-mismatches-err" when the input carries
    no condition tagged P2PH, and throws [bad_cast] when it carries one:
    the cast of line 80 is made on the copy the loop of line 77 takes of
    the condition. *)
Theorem P2PH_input_rule (c : CTxExecuteContext) prevUid uid input (hash : uint256) :
  let eval := CheckUtxoCondition true prevUid uid input
                (mkCond P2PH (CPasswordHashLockCondOut hash)) in
  ((∀ cond, cond ∈ in_conds input → cond_type cond ≠ P2PH) →
   rejects_with eval c REJECT_INVALID "cond-mismatches-err")
  ∧ ((∃ cond, cond ∈ in_conds input ∧ cond_type cond = P2PH) →
     eval c = (inr (Crash BadCast), c)).
Proof.
  intros eval.
  unfold rejects_with, eval, CheckUtxoCondition, bind, dynamic_cast. simpl.
  rewrite P2PH_scan_eval. split.
  - intros Hnone.
    assert (existsb tagged_P2PH (in_conds input) = false) as ->; [|done].
    apply not_true_is_false. intros Hex. apply existsb_exists in Hex as [x [Hx Ht]].
    apply list_elem_of_In in Hx. apply (Hnone x Hx).
    unfold tagged_P2PH in Ht. by destruct (cond_type x).
  - intros [cond [Hin Hty]].
    assert (existsb tagged_P2PH (in_conds input) = true) as ->; [|done].
    apply existsb_exists. exists cond. split; [by apply list_elem_of_In|].
    unfold tagged_P2PH. by rewrite Hty.
Qed.

(** A condition whose tag is none of the five known kinds is rejected with
    "cond-type-err", on inputs and on outputs, whatever object it carries. *)
Lemma unknown_kind_rejected (c : CTxExecuteContext) isCheckInput prevUid uid input
    (cond : CUtxoCond) :
  unknown_tag cond = true →
  rejects_with (CheckUtxoCondition isCheckInput prevUid uid input cond) c
    REJECT_INVALID "cond-type-err".
Proof.
  unfold unknown_tag, rejects_with, CheckUtxoCondition.
  by destruct (cond_type cond).
Qed.

(** The copy of a condition with a known tag never has the class its tag
    announces. *)
Lemma loop_copy_mismatch cond :
  unknown_tag cond = false → class_matches (loop_copy cond) = false.
Proof. unfold unknown_tag, class_matches, loop_copy. simpl. by destruct (cond_type cond). Qed.

Lemma evaluator_throws_on_mismatch (c : CTxExecuteContext) isCheckInput prevUid uid input
    (cond : CUtxoCond) :
  class_matches cond = false →
  CheckUtxoCondition isCheckInput prevUid uid input cond c = (inr (Crash BadCast), c).
Proof.
  intros Hm. destruct cond as [ty obj]. unfold class_matches in Hm. simpl in Hm.
  unfold CheckUtxoCondition, bind, dynamic_cast. simpl.
  destruct ty, obj; try discriminate Hm; reflexivity.
Qed.

(** X5: a condition whose object is not of the class its tag announces
    makes the evaluator throw [bad_cast] before any check; the exception
    leaves the loop over the conditions, so it ends [CheckTx], which a
    rejection never does. *)
Theorem class_mismatch_throws (c : CTxExecuteContext) isCheckInput prevUid uid input
    (cond : CUtxoCond) (rest : list CUtxoCond) :
  class_matches cond = false →
  CheckUtxoCondition isCheckInput prevUid uid input cond c = (inr (Crash BadCast), c)
  ∧ CheckTx_conds isCheckInput prevUid uid input (cond :: rest) c
    = (inr (Crash BadCast), c).
Proof.
  intros Hm. split; [by apply evaluator_throws_on_mismatch|].
  assert (Hknown : unknown_tag cond = false).
  { unfold class_matches in Hm. unfold unknown_tag. by destruct (cond_type cond). }
  simpl. unfold bind, call_discard.
  by rewrite (evaluator_throws_on_mismatch _ _ _ _ _ _ (loop_copy_mismatch _ Hknown)).
Qed.

End EvaluatorRules.

(** ** The admission check *)

Section Admission.
Context `{E : Collaborators}.

Lemma macro_check_cases verdict c :
  macro_check verdict c = (inl (), c)
  ∨ ∃ reason, macro_check verdict c
              = (inr (Return false),
                 set_state c (state_DoS 100 REJECT_INVALID reason (pState c))).
Proof. destruct verdict; [right; by eexists | by left]. Qed.

(** The checks before the size limits either pass, leaving the context as
    it was, or reject. *)
Lemma CheckTx_prelude_cases tx c :
  (∃ srcAccount, CheckTx_prelude tx c = (inl srcAccount, c))
  ∨ (∃ c', CheckTx_prelude tx c = (inr (Return false), c')).
Proof.
  unfold CheckTx_prelude, bind, get_height.
  destruct (macro_check_cases (disable_tx_pre_stable_coin_release (height c)) c)
    as [->|[r ->]]; [|right; by eexists].
  destruct (macro_check_cases (check_tx_memo (memo tx)) c)
    as [->|[r ->]]; [|right; by eexists].
  destruct (macro_check_cases (check_tx_regid_or_pubkey (txUid tx)) c)
    as [->|[r ->]]; [|right; by eexists].
  destruct (macro_check_cases (CheckFee tx (height c)) c)
    as [->|[r ->]]; [|right; by eexists].
  assert (Hkey :
    (match txUid tx with
     | CPubKey pk => if negb (IsFullyValid pk)
                     then DoS 100 REJECT_INVALID "bad-publickey" else pure ()
     | _ => pure ()
     end) c = (inl (), c)
    ∨ ∃ c', (match txUid tx with
             | CPubKey pk => if negb (IsFullyValid pk)
                             then DoS 100 REJECT_INVALID "bad-publickey" else pure ()
             | _ => pure ()
             end) c = (@inr unit _ (Return false), c')).
  { destruct (txUid tx) as [| | |pk]; try by left.
    destruct (IsFullyValid pk); [by left | right; by eexists]. }
  destruct Hkey as [->|[c' ->]]; [|right; by eexists].
  unfold GetAccount.
  destruct (accountCache (pCw c) !! txUid tx); [left | right]; by eexists.
Qed.

(** A rejection by the size limits is the verdict of the whole check,
    whatever the earlier checks say the call returns [false]. *)
Lemma CheckTx_size_limits_reject tx c :
  (∀ c0, ∃ c1, CheckTx_size_limits tx c0 = (inr (Return false), c1)) →
  (run (CheckTx tx) c).1 = Return false.
Proof.
  intros Hsz. unfold run, CheckTx, bind.
  destruct (CheckTx_prelude_cases tx c) as [[a ->]|[c' ->]]; [|done].
  destruct (Hsz c) as [c1 ->]. done.
Qed.

Lemma CheckTx_size_limits_verdict tx c reason :
  prelude_passes tx c →
  rejects_with (CheckTx_size_limits tx) c REJECT_INVALID reason →
  rejects_with (CheckTx tx) c REJECT_INVALID reason.
Proof.
  intros [a Ha] Hsz. unfold rejects_with in *. unfold CheckTx, bind.
  by rewrite Ha, Hsz.
Qed.

(** The loop over the conditions of one input or output never leaves
    [CheckTx] with a verdict: whatever the evaluator returns, control goes
    on to the next condition. *)
Lemma CheckTx_conds_never_returns isCheckInput prevUid uid input conds :
  ∀ c b, (CheckTx_conds isCheckInput prevUid uid input conds c).1 ≠ inr (Return b).
Proof.
  induction conds as [|cond rest IH]; intros c b; simpl; [done|].
  unfold bind, call_discard.
  destruct (CheckUtxoCondition _ _ _ _ _ _) as [[[]|[b'|f|ub]] c']; simpl;
    try apply IH; done.
Qed.

(** C9: validation enforces the structural size limits. A transaction with
    no input and no output is always rejected, with reason
    "utxo-empty-err" once the checks that precede the size limits pass;
    more than 100 inputs, or more than 100 outputs, are always rejected,
    with the reason of the size limit that fires first; a non-empty
    transaction with at most 100 inputs and at most 100 outputs passes the
    size-limit checks. *)
Theorem CheckTx_enforces_size_limits (tx : CCoinUtxoTx) (c : CTxExecuteContext) :
  (length (vins tx) = 0%nat → length (vouts tx) = 0%nat →
     (run (CheckTx tx) c).1 = Return false
     ∧ (prelude_passes tx c →
        rejects_with (CheckTx tx) c REJECT_INVALID "utxo-empty-err"))
  ∧ ((100 < length (vins tx))%nat →
     (run (CheckTx tx) c).1 = Return false
     ∧ (prelude_passes tx c →
        rejects_with (CheckTx tx) c REJECT_INVALID "vins-size-too-large"))
  ∧ ((100 < length (vouts tx))%nat →
     (run (CheckTx tx) c).1 = Return false
     ∧ (prelude_passes tx c → (length (vins tx) ≤ 100)%nat →
        rejects_with (CheckTx tx) c REJECT_INVALID "vouts-size-too-large"))
  ∧ ((0 < length (vins tx) + length (vouts tx))%nat →
     (length (vins tx) ≤ 100)%nat → (length (vouts tx) ≤ 100)%nat →
     accepts (CheckTx_size_limits tx) c).
Proof.
  split_and!.
  - intros Hin Hout. split.
    + apply CheckTx_size_limits_reject. intros c0. unfold CheckTx_size_limits.
      rewrite Hin, Hout. simpl. by eexists.
    + intros Hpre. apply CheckTx_size_limits_verdict; [done|].
      unfold rejects_with, CheckTx_size_limits. by rewrite Hin, Hout.
  - intros Hin.
    assert (Hlt : (100 <? length (vins tx))%nat = true) by by apply Nat.ltb_lt.
    split.
    + apply CheckTx_size_limits_reject. intros c0. unfold CheckTx_size_limits.
      rewrite Hlt. by eexists.
    + intros Hpre. apply CheckTx_size_limits_verdict; [done|].
      unfold rejects_with, CheckTx_size_limits. by rewrite Hlt.
  - intros Hout.
    assert (Hlt : (100 <? length (vouts tx))%nat = true) by by apply Nat.ltb_lt.
    split.
    + apply CheckTx_size_limits_reject. intros c0. unfold CheckTx_size_limits.
      rewrite Hlt. destruct (100 <? length (vins tx))%nat; by eexists.
    + intros Hpre Hin. apply CheckTx_size_limits_verdict; [done|].
      unfold rejects_with, CheckTx_size_limits. rewrite Hlt.
      assert ((100 <? length (vins tx))%nat = false) as -> by (apply Nat.ltb_ge; lia).
      done.
  - intros Hne Hin Hout. exists (). unfold CheckTx_size_limits.
    assert ((100 <? length (vins tx))%nat = false) as -> by (apply Nat.ltb_ge; lia).
    assert ((100 <? length (vouts tx))%nat = false) as -> by (apply Nat.ltb_ge; lia).
    destruct (Nat.eqb_spec (length (vins tx)) 0) as [Hz|]; simpl; [|done].
    destruct (Nat.eqb_spec (length (vouts tx)) 0); [lia|done].
Qed.

(** With transaction indexing disabled the resolver answers [false] and
    the input that needs it is rejected. *)
Lemma GetUtxoTxFromChain_index_disabled txid pTx c :
  IsTxIndex chain = false →
  GetUtxoTxFromChain txid pTx c = (inl (false, pTx), c).
Proof. intros H. unfold GetUtxoTxFromChain. by rewrite H. Qed.

Lemma CheckTx_vins_index_disabled uid input rest total c :
  IsTxIndex chain = false →
  rejects_with (CheckTx_vins uid (input :: rest) total) c
    REJECT_INVALID "failed-to-load-prev-utxo-err".
Proof.
  intros H. unfold rejects_with. simpl. unfold bind.
  by rewrite GetUtxoTxFromChain_index_disabled.
Qed.

(** With indexing enabled the resolver answers [true] also when the index
    has no entry for the id, and the pointer keeps its value. *)
Lemma GetUtxoTxFromChain_missing_entry txid pTx c :
  IsTxIndex chain = true →
  txIndex chain !! txid = None →
  GetUtxoTxFromChain txid pTx c = (inl (true, pTx), c).
Proof. intros H1 H2. unfold GetUtxoTxFromChain. by rewrite H1, H2. Qed.

(** The resolver reads the block store only, and the pointer of its
    caller is after the call what it was before. *)
Lemma GetUtxoTxFromChain_cases txid pTx c :
  (∃ b, GetUtxoTxFromChain txid pTx c = (inl (b, pTx), c))
  ∨ GetUtxoTxFromChain txid pTx c = (inr (Crash IOError), c).
Proof.
  unfold GetUtxoTxFromChain.
  destruct (IsTxIndex chain); simpl; [|left; by eexists].
  destruct (txIndex chain !! txid) as [pos|]; [|left; by eexists].
  destruct (blockFile chain !! pos); [left; by eexists | by right].
Qed.

(** The first input ends the input loop of [CheckTx]: the resolver
    answers [false], or throws, or answers [true] and line 188 reads the
    transaction through the pointer it has left null. *)
Lemma CheckTx_vins_first uid input rest total c :
  CheckTx_vins uid (input :: rest) total c
  = if negb (IsTxIndex chain)
    then (inr (Return false),
          set_state c (state_DoS 100 REJECT_INVALID "failed-to-load-prev-utxo-err"
                         (pState c)))
    else match txIndex chain !! prev_utxo_txid input with
         | Some txPos =>
             match blockFile chain !! txPos with
             | Some _ => (inr (Crash NullDereference), c)
             | None => (inr (Crash IOError), c)
             end
         | None => (inr (Crash NullDereference), c)
         end.
Proof.
  simpl. unfold bind, GetUtxoTxFromChain.
  destruct (IsTxIndex chain); simpl; [|done].
  destruct (txIndex chain !! prev_utxo_txid input) as [pos|]; [|done].
  by destruct (blockFile chain !! pos).
Qed.

(** The loop over the conditions gets through only on conditions whose
    tags are none of the five kinds: on the copy of any other the cast
    throws. It changes the validation state only. *)
Lemma CheckTx_conds_complete isCheckInput prevUid uid input conds :
  ∀ c c',
    CheckTx_conds isCheckInput prevUid uid input conds c = (inl (), c') →
    forallb unknown_tag conds = true ∧ pCw c' = pCw c ∧ height c' = height c.
Proof.
  induction conds as [|element rest IH]; intros c c' Hrun.
  - by injection Hrun as <-.
  - simpl in Hrun. unfold bind, call_discard in Hrun. simpl.
    destruct (unknown_tag element) eqn:Htag.
    + assert (Hcopy : unknown_tag (loop_copy element) = true) by done.
      rewrite (unknown_kind_rejected c isCheckInput prevUid uid input _ Hcopy) in Hrun.
      apply IH in Hrun as (? & ? & ?). done.
    + rewrite (evaluator_throws_on_mismatch c isCheckInput prevUid uid input _
                 (loop_copy_mismatch _ Htag)) in Hrun.
      discriminate Hrun.
Qed.

End Admission.

Lemma CheckTx_enforces_size_limits_witness :
  rejects_with (CheckTx (E := Scenario.world) (Scenario.transfer 10000 [] []))
    (Scenario.ctx 20 1000) REJECT_INVALID "utxo-empty-err"
  ∧ rejects_with (CheckTx (E := Scenario.world)
                    (Scenario.transfer 10000 (replicate 101 Scenario.spend_prior) []))
      (Scenario.ctx 20 1000) REJECT_INVALID "vins-size-too-large"
  ∧ rejects_with (CheckTx (E := Scenario.world)
                    (Scenario.transfer 10000 []
                       (replicate 101 (mkOutput 1 [Scenario.owned_by (CRegID 9)]))))
      (Scenario.ctx 20 1000) REJECT_INVALID "vouts-size-too-large"
  ∧ accepts (CheckTx_size_limits
               (Scenario.transfer 10000 [Scenario.spend_prior]
                  (replicate 100 (mkOutput 1 [Scenario.owned_by (CRegID 9)]))))
      (Scenario.ctx 20 1000).
Proof.
  assert (Hpre : ∀ ins outs,
    prelude_passes (H := Scenario.world) (Scenario.transfer 10000 ins outs)
      (Scenario.ctx 20 1000)).
  { intros ins outs. exists (Scenario.acct 1000). reflexivity. }
  split_and!.
  - destruct (CheckTx_enforces_size_limits (E := Scenario.world)
                (Scenario.transfer 10000 [] []) (Scenario.ctx 20 1000))
      as (H0 & _ & _ & _).
    destruct (H0 eq_refl eq_refl) as [_ Hr]. apply Hr, Hpre.
  - destruct (CheckTx_enforces_size_limits (E := Scenario.world)
                (Scenario.transfer 10000 (replicate 101 Scenario.spend_prior) [])
                (Scenario.ctx 20 1000))
      as (_ & H1 & _ & _).
    destruct H1 as [_ Hr]; [simpl; rewrite ?length_replicate; lia|]. apply Hr, Hpre.
  - destruct (CheckTx_enforces_size_limits (E := Scenario.world)
                (Scenario.transfer 10000 []
                   (replicate 101 (mkOutput 1 [Scenario.owned_by (CRegID 9)])))
                (Scenario.ctx 20 1000))
      as (_ & _ & H2 & _).
    destruct H2 as [_ Hr]; [simpl; rewrite ?length_replicate; lia|].
    apply Hr; [apply Hpre | simpl; lia].
  - destruct (CheckTx_enforces_size_limits (E := Scenario.world)
                (Scenario.transfer 10000 [Scenario.spend_prior]
                   (replicate 100 (mkOutput 1 [Scenario.owned_by (CRegID 9)])))
                (Scenario.ctx 20 1000))
      as (_ & _ & _ & H3).
    apply H3; simpl; rewrite ?length_replicate; lia.
Defined.

(** C1: a Reject of the evaluator does not abort [CheckTx]: the loop over
    the conditions of an input or an output never leaves [CheckTx] with a
    verdict. The one output of the transaction below carries a condition
    whose tag is none of the five kinds: the evaluator rejects it with
    "cond-type-err", and [CheckTx] returns [true] with that rejection left
    in the validation state. *)
Theorem CheckTx_drops_condition_verdict :
  let c := Scenario.ctx 20 1000000 in
  (∀ (E : Collaborators) isCheckInput prevUid uid input conds c0 b,
     (CheckTx_conds isCheckInput prevUid uid input conds c0).1 ≠ inr (Return b))
  ∧ rejects_with (CheckUtxoCondition (E := Scenario.world) false CNullID Scenario.sender
                    (mkInput 0 0 []) (loop_copy Scenario.odd_lock))
      c REJECT_INVALID "cond-type-err"
  ∧ run (CheckTx (E := Scenario.world) Scenario.odd) c
    = (Return true,
       set_state c (state_DoS 100 REJECT_INVALID "cond-type-err" Scenario.fresh)).
Proof.
  split_and!; [|vm_compute; reflexivity..].
  intros E. apply CheckTx_conds_never_returns.
Qed.

(** C4: with indexing enabled and no index entry for the referenced id
    (8), the resolver answers [true] and loads nothing; [CheckTx] does not
    reject the input with "failed-to-load-prev-utxo-err" but goes on to
    read the transaction through the null pointer. *)
Theorem GetUtxoTxFromChain_reports_success_when_not_found :
  let c := Scenario.ctx 20 1000000 in
  let dangling := Scenario.transfer 10000 [mkInput 8 0 []]
                    [mkOutput 300 [Scenario.owned_by (CRegID 9)]] in
  IsTxIndex (chain (Collaborators := Scenario.world)) = true
  ∧ txIndex (chain (Collaborators := Scenario.world)) !! 8 = None
  ∧ GetUtxoTxFromChain (E := Scenario.world) 8 None c = (inl (true, None), c)
  ∧ run (CheckTx (E := Scenario.world) dangling) c = (Crash NullDereference, c).
Proof. split_and!; vm_compute; reflexivity. Qed.

(** ** What the admission check reads and what it guarantees *)

Section AdmissionFrame.
Context `{E : Collaborators}.

Lemma keeps_pure {A} (a : A) : keeps_ledger (pure a).
Proof. intros c r c' [= <- <-]. done. Qed.

Lemma keeps_DoS {A} level rc reason : keeps_ledger (@DoS A level rc reason).
Proof. intros c r c' [= <- <-]. done. Qed.

Lemma keeps_crash {A} f : keeps_ledger (@crash A f).
Proof. intros c r c' [= <- <-]. done. Qed.

Lemma keeps_undefined {A} u : keeps_ledger (@undefined A u).
Proof. intros c r c' [= <- <-]. done. Qed.

Lemma keeps_bind {A B} (m : Step A) (k : A → Step B) :
  keeps_ledger m → (∀ a, keeps_ledger (k a)) → keeps_ledger (bind m k).
Proof.
  intros Hm Hk c r c'. unfold bind.
  destruct (m c) as [[a|e] c1] eqn:Hmc.
  - intros Hka. destruct (Hm _ _ _ Hmc) as (?&?&?).
    destruct (Hk a _ _ _ Hka) as (?&?&?). split_and!; congruence.
  - intros [= <- <-]. by apply (Hm _ _ _ Hmc).
Qed.

Lemma keeps_call_discard {A} (m : Step A) :
  keeps_ledger m → keeps_ledger (call_discard m).
Proof.
  intros Hm c r c'. unfold call_discard.
  destruct (m c) as [[a|[b|f|ub]] c1] eqn:Hmc; intros [= <- <-];
    by apply (Hm _ _ _ Hmc).
Qed.

Lemma keeps_get_height : keeps_ledger get_height.
Proof. intros c r c' [= <- <-]. done. Qed.

Lemma keeps_GetAccount uid : keeps_ledger (GetAccount uid).
Proof. intros c r c' [= <- <-]. done. Qed.

Lemma keeps_GetUtxoTxFromChain txid pTx : keeps_ledger (GetUtxoTxFromChain txid pTx).
Proof.
  intros c r c'.
  destruct (GetUtxoTxFromChain_cases txid pTx c) as [[b ->]| ->];
    intros [= <- <-]; done.
Qed.

Lemma keeps_dynamic_cast {T} (sel : CondClass → option T) cond :
  keeps_ledger (dynamic_cast sel cond).
Proof.
  unfold dynamic_cast. destruct (sel _); [apply keeps_pure | apply keeps_crash].
Qed.

Lemma keeps_deref {A} (p : option A) : keeps_ledger (deref p).
Proof. destruct p; [apply keeps_pure | apply keeps_crash]. Qed.

Lemma keeps_subscript {A} (v : list A) i : keeps_ledger (subscript v i).
Proof.
  unfold subscript. destruct (v !! i); [apply keeps_pure | apply keeps_undefined].
Qed.

Lemma keeps_macro_check verdict : keeps_ledger (macro_check verdict).
Proof. destruct verdict; [apply keeps_DoS | apply keeps_pure]. Qed.

Create HintDb keeps discriminated.
#[local] Hint Resolve keeps_pure keeps_DoS keeps_crash keeps_undefined keeps_get_height keeps_GetAccount
  keeps_GetUtxoTxFromChain keeps_dynamic_cast keeps_deref keeps_subscript
  keeps_macro_check keeps_call_discard : keeps.

Ltac keeps_steps :=
  repeat first
    [ solve [auto with keeps]
    | apply keeps_bind; [|intros ?]
    | match goal with
      | |- keeps_ledger (if ?b then _ else _) => destruct b
      | |- keeps_ledger (match ?x with _ => _ end) => destruct x
      end ].

Lemma keeps_P2PH_scan hash uid conds :
  ∀ found, keeps_ledger (P2PH_scan hash uid conds found).
Proof.
  induction conds as [|cond rest IH]; intros found; simpl; keeps_steps.
Qed.

Lemma keeps_CheckUtxoCondition isCheckInput prevUid uid input cond :
  keeps_ledger (CheckUtxoCondition isCheckInput prevUid uid input cond).
Proof.
  pose proof (keeps_P2PH_scan) as Hscan.
  unfold CheckUtxoCondition, break_. keeps_steps.
Qed.

Lemma keeps_CheckTx_conds isCheckInput prevUid uid input conds :
  keeps_ledger (CheckTx_conds isCheckInput prevUid uid input conds).
Proof.
  pose proof keeps_CheckUtxoCondition as Hev.
  induction conds as [|cond rest IH]; simpl; keeps_steps.
Qed.

Lemma keeps_CheckTx_vins uid ins : ∀ total, keeps_ledger (CheckTx_vins uid ins total).
Proof.
  pose proof keeps_CheckTx_conds as Hconds.
  induction ins as [|input rest IH]; intros total; simpl; keeps_steps.
Qed.

Lemma keeps_CheckTx_vouts uid outs : ∀ total, keeps_ledger (CheckTx_vouts uid outs total).
Proof.
  pose proof keeps_CheckTx_conds as Hconds.
  induction outs as [|output rest IH]; intros total; simpl; keeps_steps.
Qed.

Lemma keeps_CheckTx tx : keeps_ledger (CheckTx tx).
Proof.
  pose proof keeps_CheckTx_vins as Hins.
  pose proof keeps_CheckTx_vouts as Houts.
  unfold CheckTx, CheckTx_prelude, CheckTx_size_limits, CheckTx_fee_floor.
  keeps_steps.
Qed.

(** X6: [CheckTx] has no side effect on the ledger: however it ends, the
    account store, the UTXO Index, the receipt store, the height and the
    index are the ones it was called with; only the validation state can
    differ. *)
Theorem CheckTx_reads_only (tx : CCoinUtxoTx) (c : CTxExecuteContext) :
  pCw (run (CheckTx tx) c).2 = pCw c
  ∧ height (run (CheckTx tx) c).2 = height c
  ∧ index (run (CheckTx tx) c).2 = index c.
Proof.
  unfold run. destruct (CheckTx tx c) as [[b|e] c'] eqn:Hrun;
    destruct (keeps_CheckTx tx _ _ _ Hrun) as (?&?&?); done.
Qed.

End AdmissionFrame.

Section AdmissionBlind.
Context `{E : Collaborators}.

Lemma blind_pure {A} (a : A) : utxo_blind (pure a).
Proof. by intros c u. Qed.

Lemma blind_DoS {A} level rc reason : utxo_blind (@DoS A level rc reason).
Proof. by intros c u. Qed.

Lemma blind_crash {A} f : utxo_blind (@crash A f).
Proof. by intros c u. Qed.

Lemma blind_undefined {A} ub : utxo_blind (@undefined A ub).
Proof. by intros c u. Qed.

Lemma blind_bind {A B} (m : Step A) (k : A → Step B) :
  utxo_blind m → (∀ a, utxo_blind (k a)) → utxo_blind (bind m k).
Proof.
  intros Hm Hk c u. unfold bind. rewrite Hm.
  destruct (m c) as [[a|e] c1]; simpl; [apply Hk | done].
Qed.

Lemma blind_call_discard {A} (m : Step A) :
  utxo_blind m → utxo_blind (call_discard m).
Proof.
  intros Hm c u. unfold call_discard. rewrite Hm.
  by destruct (m c) as [[a|[b|f|ub]] c1].
Qed.

Lemma blind_get_height : utxo_blind get_height.
Proof. by intros c u. Qed.

Lemma blind_GetAccount uid : utxo_blind (GetAccount uid).
Proof. by intros c u. Qed.

Lemma blind_GetUtxoTxFromChain txid pTx : utxo_blind (GetUtxoTxFromChain txid pTx).
Proof.
  intros c u. unfold GetUtxoTxFromChain.
  destruct (IsTxIndex chain); simpl; [|done].
  destruct (txIndex chain !! txid) as [pos|]; [|done].
  by destruct (blockFile chain !! pos).
Qed.

Lemma blind_dynamic_cast {T} (sel : CondClass → option T) cond :
  utxo_blind (dynamic_cast sel cond).
Proof.
  unfold dynamic_cast. destruct (sel _); [apply blind_pure | apply blind_crash].
Qed.

Lemma blind_deref {A} (p : option A) : utxo_blind (deref p).
Proof. destruct p; [apply blind_pure | apply blind_crash]. Qed.

Lemma blind_subscript {A} (v : list A) i : utxo_blind (subscript v i).
Proof.
  unfold subscript. destruct (v !! i); [apply blind_pure | apply blind_undefined].
Qed.

Lemma blind_macro_check verdict : utxo_blind (macro_check verdict).
Proof. destruct verdict; [apply blind_DoS | apply blind_pure]. Qed.

Create HintDb blind discriminated.
#[local] Hint Resolve blind_pure blind_DoS blind_crash blind_undefined blind_get_height blind_GetAccount
  blind_GetUtxoTxFromChain blind_dynamic_cast blind_deref blind_subscript
  blind_macro_check blind_call_discard : blind.

Ltac blind_steps :=
  repeat first
    [ solve [auto with blind]
    | apply blind_bind; [|intros ?]
    | match goal with
      | |- utxo_blind (if ?b then _ else _) => destruct b
      | |- utxo_blind (match ?x with _ => _ end) => destruct x
      end ].

Lemma blind_P2PH_scan hash uid conds :
  ∀ found, utxo_blind (P2PH_scan hash uid conds found).
Proof.
  induction conds as [|cond rest IH]; intros found; simpl; blind_steps.
Qed.

Lemma blind_CheckUtxoCondition isCheckInput prevUid uid input cond :
  utxo_blind (CheckUtxoCondition isCheckInput prevUid uid input cond).
Proof.
  pose proof (blind_P2PH_scan) as Hscan.
  unfold CheckUtxoCondition, break_. blind_steps.
Qed.

Lemma blind_CheckTx_conds isCheckInput prevUid uid input conds :
  utxo_blind (CheckTx_conds isCheckInput prevUid uid input conds).
Proof.
  pose proof blind_CheckUtxoCondition as Hev.
  induction conds as [|cond rest IH]; simpl; blind_steps.
Qed.

Lemma blind_CheckTx_vins uid ins : ∀ total, utxo_blind (CheckTx_vins uid ins total).
Proof.
  pose proof blind_CheckTx_conds as Hconds.
  induction ins as [|input rest IH]; intros total; simpl; blind_steps.
Qed.

Lemma blind_CheckTx_vouts uid outs : ∀ total, utxo_blind (CheckTx_vouts uid outs total).
Proof.
  pose proof blind_CheckTx_conds as Hconds.
  induction outs as [|output rest IH]; intros total; simpl; blind_steps.
Qed.

Lemma blind_CheckTx tx : utxo_blind (CheckTx tx).
Proof.
  pose proof blind_CheckTx_vins as Hins.
  pose proof blind_CheckTx_vouts as Houts.
  unfold CheckTx, CheckTx_prelude, CheckTx_size_limits, CheckTx_fee_floor.
  blind_steps.
Qed.

(** X7: [CheckTx] never consults the UTXO Index: with any other set of
    unspent keys it ends the same way and leaves the same validation
    state. Whether a referenced output is still unspent is found out by
    [ExecuteTx] only. *)
Theorem CheckTx_ignores_utxo_index (tx : CCoinUtxoTx) (c : CTxExecuteContext)
    (u : gset (TxID * nat)) :
  (run (CheckTx tx) (with_utxos c u)).1 = (run (CheckTx tx) c).1
  ∧ pState (run (CheckTx tx) (with_utxos c u)).2 = pState (run (CheckTx tx) c).2.
Proof.
  unfold run. rewrite (blind_CheckTx tx c u).
  by destruct (CheckTx tx c) as [[b|e] c'].
Qed.

End AdmissionBlind.

(** ** Totals *)

(** Accumulating amounts in a [uint64_t] gives their sum modulo 2^64. *)
Lemma fold_u64_sum (amounts : list Z) :
  ∀ t, u64 t = t →
       fold_left (fun acc a => u64 (acc + a)) amounts t = u64 (t + sum_amounts amounts).
Proof.
  induction amounts as [|a rest IH]; intros t Ht; simpl.
  - by rewrite Z.add_0_r.
  - rewrite IH by (unfold u64; apply Z.mod_mod; lia).
    unfold u64. rewrite Zplus_mod_idemp_l. f_equal. lia.
Qed.

Section AdmissionSound.
Context `{E : Collaborators}.

Lemma nrt_pure {A} (a : A) : never_returns_true (pure a).
Proof. by intros c e c'. Qed.

Lemma nrt_DoS {A} level rc reason : never_returns_true (@DoS A level rc reason).
Proof. by intros c e c' [= <- <-]. Qed.

Lemma nrt_crash {A} f : never_returns_true (@crash A f).
Proof. by intros c e c' [= <- <-]. Qed.

Lemma nrt_undefined {A} u : never_returns_true (@undefined A u).
Proof. by intros c e c' [= <- <-]. Qed.

Lemma nrt_bind {A B} (m : Step A) (k : A → Step B) :
  never_returns_true m → (∀ a, never_returns_true (k a)) →
  never_returns_true (bind m k).
Proof.
  intros Hm Hk c e c'. unfold bind.
  destruct (m c) as [[a|e0] c1] eqn:Hmc.
  - apply Hk.
  - intros [= <- <-]. by apply (Hm _ _ _ Hmc).
Qed.

Lemma nrt_call_discard {A} (m : Step A) : never_returns_true (call_discard m).
Proof.
  intros c e c'. unfold call_discard.
  destruct (m c) as [[a|[b|f|u]] c1]; by intros [= <- <-].
Qed.

Lemma nrt_get_height : never_returns_true get_height.
Proof. by intros c e c'. Qed.

Lemma nrt_GetAccount uid : never_returns_true (GetAccount uid).
Proof. by intros c e c'. Qed.

Lemma nrt_GetUtxoTxFromChain txid pTx :
  never_returns_true (GetUtxoTxFromChain txid pTx).
Proof.
  intros c e c'.
  destruct (GetUtxoTxFromChain_cases txid pTx c) as [[b ->]| ->]; by intros [= <- <-].
Qed.

Lemma nrt_deref {A} (p : option A) : never_returns_true (deref p).
Proof. destruct p; [apply nrt_pure | apply nrt_crash]. Qed.

Lemma nrt_subscript {A} (v : list A) i : never_returns_true (subscript v i).
Proof.
  unfold subscript. destruct (v !! i); [apply nrt_pure | apply nrt_undefined].
Qed.

Lemma nrt_macro_check verdict : never_returns_true (macro_check verdict).
Proof. destruct verdict; [apply nrt_DoS | apply nrt_pure]. Qed.

Create HintDb nrt discriminated.
#[local] Hint Resolve nrt_pure nrt_DoS nrt_crash nrt_undefined nrt_get_height
  nrt_GetAccount nrt_GetUtxoTxFromChain nrt_deref nrt_subscript nrt_macro_check
  nrt_call_discard : nrt.

Ltac nrt_steps :=
  repeat first
    [ solve [auto with nrt]
    | apply nrt_bind; [|intros ?]
    | match goal with
      | |- never_returns_true (if ?b then _ else _) => destruct b
      | |- never_returns_true (match ?x with _ => _ end) => destruct x
      end ].

Lemma nrt_CheckTx_conds isCheckInput prevUid uid input conds :
  never_returns_true (CheckTx_conds isCheckInput prevUid uid input conds).
Proof. induction conds as [|cond rest IH]; simpl; nrt_steps. Qed.

Lemma nrt_CheckTx_vins uid ins :
  ∀ total, never_returns_true (CheckTx_vins uid ins total).
Proof.
  pose proof nrt_CheckTx_conds as Hconds.
  induction ins as [|input rest IH]; intros total; simpl; nrt_steps.
Qed.

Lemma nrt_CheckTx_vouts uid outs :
  ∀ total, never_returns_true (CheckTx_vouts uid outs total).
Proof.
  pose proof nrt_CheckTx_conds as Hconds.
  induction outs as [|output rest IH]; intros total; simpl; nrt_steps.
Qed.

Lemma nrt_CheckTx_prelude tx : never_returns_true (CheckTx_prelude tx).
Proof. unfold CheckTx_prelude. nrt_steps. Qed.

Lemma CheckTx_prelude_inv tx c srcAccount c1 :
  CheckTx_prelude tx c = (inl srcAccount, c1) →
  c1 = c ∧ accounts c !! txUid tx = Some srcAccount.
Proof.
  unfold CheckTx_prelude, bind, get_height, macro_check, GetAccount, accounts.
  destruct (disable_tx_pre_stable_coin_release (height c)); [discriminate|].
  destruct (check_tx_memo (memo tx)); [discriminate|].
  destruct (check_tx_regid_or_pubkey (txUid tx)); [discriminate|].
  destruct (CheckFee tx (height c)); [discriminate|]. simpl.
  assert (Hacc : (match accountCache (pCw c) !! txUid tx with
                  | Some a => pure a
                  | None => DoS 100 REJECT_INVALID "bad-getaccount"
                  end) c = (inl srcAccount, c1) →
                 c1 = c ∧ accountCache (pCw c) !! txUid tx = Some srcAccount).
  { destruct (accountCache (pCw c) !! txUid tx); [|discriminate].
    by intros [= -> ->]. }
  destruct (txUid tx) as [| | |pk]; simpl; try exact Hacc.
  destruct (IsFullyValid pk); simpl; [exact Hacc | discriminate].
Qed.

(** The input loop of [CheckTx] gets through on the empty list only. *)
Lemma CheckTx_vins_complete uid ins t c t' c' :
  CheckTx_vins uid ins t c = (inl t', c') → ins = [] ∧ t' = t ∧ c' = c.
Proof.
  destruct ins as [|input rest]; [by intros [= <- <-]|].
  rewrite CheckTx_vins_first.
  destruct (negb _); [discriminate|].
  destruct (txIndex chain !! _) as [pos|]; [|discriminate].
  destruct (blockFile chain !! pos); discriminate.
Qed.

(** The output loop gets through only when no amount is zero and every
    condition has a tag that is none of the five kinds; it returns the
    wrapped sum of the amounts. *)
Lemma CheckTx_vouts_complete uid outs :
  ∀ t c t' c',
    CheckTx_vouts uid outs t c = (inl t', c') →
    Forall (fun output => coin_amount output ≠ 0
                          ∧ forallb unknown_tag (out_conds output) = true) outs
    ∧ t' = fold_left (fun acc a => u64 (acc + a)) (output_amounts outs) t.
Proof.
  induction outs as [|output rest IH]; intros t c t' c' Hrun.
  - injection Hrun as <- <-. split; [constructor|done].
  - simpl in Hrun. unfold bind in Hrun.
    destruct (Z.eqb_spec (coin_amount output) 0) as [|Hnz]; [discriminate|].
    destruct (CheckTx_conds _ _ _ _ _ _) as [[[]|e] c1] eqn:Hconds; [|discriminate].
    apply CheckTx_conds_complete in Hconds as (Htags & _ & _).
    apply IH in Hrun as [HF ->].
    split; [by constructor | done].
Qed.

(** What the checks of [CheckTx] have established when it returns [true]. *)
Lemma CheckTx_accept_inv (tx : CCoinUtxoTx) (c c' : CTxExecuteContext) :
  run (CheckTx tx) c = (Return true, c') →
  vins tx = []
  ∧ (∃ srcAccount,
       accounts c !! txUid tx = Some srcAccount
       ∧ u64 (u64 (sum_amounts (output_amounts (vouts tx))) + llFees tx)
         ≤ u64 (GetBalance (coin_symbol tx) srcAccount)
       ∧ check_tx_signature tx (match txUid tx with
                                | CPubKey pk => pk
                                | _ => owner_pubkey srcAccount
                                end) = None)
  ∧ (0 < length (vouts tx) ≤ 100)%nat
  ∧ (∃ minFee, GetTxMinFee (height c) (fee_symbol tx) = Some minFee
               ∧ fee_floor tx minFee ≤ llFees tx)
  ∧ Forall (fun output => coin_amount output ≠ 0
                          ∧ forallb unknown_tag (out_conds output) = true) (vouts tx).
Proof.
  unfold run, CheckTx, bind.
  destruct (CheckTx_prelude tx c) as [[a|e] c0] eqn:Hpre;
    [|intros [= -> ->]; by apply nrt_CheckTx_prelude in Hpre].
  apply CheckTx_prelude_inv in Hpre as [-> Hacc].
  unfold CheckTx_size_limits.
  destruct (Nat.ltb_spec 100 (length (vins tx))); [by intros [= ? ?]|].
  destruct (Nat.ltb_spec 100 (length (vouts tx))); [by intros [= ? ?]|].
  destruct (_ && _) eqn:Hempty; [by intros [= ? ?]|]. simpl.
  unfold CheckTx_fee_floor, bind, get_height. simpl.
  destruct (GetTxMinFee (height c) (fee_symbol tx)) as [minFee|] eqn:Hfee;
    [|by intros [= ? ?]].
  destruct (Z.ltb_spec (llFees tx) (u64 ((2 * Z.of_nat (length (vins tx))
                                          + Z.of_nat (length (vouts tx))) * minFee)))
    as [|Hfloor]; [by intros [= ? ?]|]. simpl.
  destruct (CheckTx_vins (txUid tx) (vins tx) 0 c) as [[tin|e] c1] eqn:Hins;
    [|intros [= -> ->]; by apply nrt_CheckTx_vins in Hins].
  apply CheckTx_vins_complete in Hins as (Hnone & -> & ->).
  destruct (CheckTx_vouts (txUid tx) (vouts tx) 0 c) as [[tout|e] c2] eqn:Houts;
    [|intros [= -> ->]; by apply nrt_CheckTx_vouts in Houts].
  apply CheckTx_vouts_complete in Houts as [Hnz ->].
  rewrite !fold_u64_sum by done. rewrite !Z.add_0_l, Z.add_0_r.
  destruct (Z.ltb_spec (u64 (GetBalance (coin_symbol tx) a))
              (u64 (u64 (sum_amounts (output_amounts (vouts tx))) + llFees tx)))
    as [|Hbal]; [by intros [= ? ?]|].
  unfold macro_check.
  destruct (check_tx_signature tx _) eqn:Hsig; [by intros [= ? ?]|].
  intros _. split_and!; try done.
  - by exists a.
  - rewrite Hnone in Hempty. simpl in Hempty. apply Nat.eqb_neq in Hempty. lia.
  - by exists minFee.
Qed.

(** X8: what an accepted transaction is known to satisfy. When [CheckTx]
    returns [true], the transaction has no input; the sender account
    exists; there are between 1 and 100 outputs; the fee is at least
    (2 * inputs + outputs) * unit fee (in [uint64_t]); no output amount is
    zero and every output condition has a tag that is none of the five
    kinds; the free balance covers the outputs plus the fee, the sums
    being taken modulo 2^64; and the signature check passed for the
    sender's public key (the account's key for a sender named by id). *)
Theorem CheckTx_accept_sound (tx : CCoinUtxoTx) (c c' : CTxExecuteContext) :
  run (CheckTx tx) c = (Return true, c') →
  vins tx = []
  ∧ (∃ srcAccount,
       accounts c !! txUid tx = Some srcAccount
       ∧ u64 (u64 (sum_amounts (output_amounts (vouts tx))) + llFees tx)
         ≤ u64 (GetBalance (coin_symbol tx) srcAccount)
       ∧ check_tx_signature tx (match txUid tx with
                                | CPubKey pk => pk
                                | _ => owner_pubkey srcAccount
                                end) = None)
  ∧ (0 < length (vouts tx) ≤ 100)%nat
  ∧ (∃ minFee, GetTxMinFee (height c) (fee_symbol tx) = Some minFee
               ∧ fee_floor tx minFee ≤ llFees tx)
  ∧ Forall (fun output => coin_amount output ≠ 0
                          ∧ forallb unknown_tag (out_conds output) = true) (vouts tx).
Proof. exact (CheckTx_accept_inv tx c c'). Qed.

(** X9: [CheckTx] accepts no transaction that has an input. When the
    earlier checks pass, indexing is enabled and the transaction the
    first input refers to can be read, or is not in the index, the
    resolver answers [true] without handing the transaction back (its
    pointer parameter is a copy), and line 188 reads through the null
    pointer. *)
Theorem CheckTx_input_reads_null (tx : CCoinUtxoTx) (c : CTxExecuteContext)
    input rest :
  vins tx = input :: rest →
  (run (CheckTx tx) c).1 ≠ Return true
  ∧ (prelude_passes tx c →
     accepts (CheckTx_size_limits tx) c →
     accepts (CheckTx_fee_floor tx) c →
     IsTxIndex chain = true →
     (∀ txPos, txIndex chain !! prev_utxo_txid input = Some txPos →
               is_Some (blockFile chain !! txPos)) →
     run (CheckTx tx) c = (Crash NullDereference, c)).
Proof.
  intros Hv. split.
  - destruct (run (CheckTx tx) c) as [e c'] eqn:Hrun. simpl. intros ->.
    apply CheckTx_accept_inv in Hrun as (Hnone & _). congruence.
  - intros [a Hpre] [[] Hsz] [[] Hfee] Hidx Hread.
    unfold run, CheckTx, bind. rewrite Hpre, Hsz, Hfee, Hv.
    rewrite CheckTx_vins_first, Hidx. simpl.
    destruct (txIndex chain !! prev_utxo_txid input) as [pos|] eqn:Hpos; [|done].
    by destruct (Hread pos eq_refl) as [prevTx ->].
Qed.

End AdmissionSound.

(** ** The ledger mutation *)

Section Execution.
Context `{E : Collaborators}.

Lemma frame_refl c : frame c c.
Proof. by repeat split. Qed.

Lemma frame_trans c1 c2 c3 : frame c1 c2 → frame c2 c3 → frame c1 c3.
Proof. unfold frame. intros (?&?&?&?) (?&?&?&?). split_and!; congruence. Qed.

Lemma frame_set_state c st : frame c (set_state c st).
Proof. by repeat split. Qed.

(** *** The arithmetic of line 276 *)

Lemma mod64_mod32 z : (z mod 2 ^ 64) mod 2 ^ 32 = z mod 2 ^ 32.
Proof. apply Z.mod_mod_divide. exists (2 ^ 32). lia. Qed.

Lemma to_int_congr x y : x mod 2 ^ 32 = y mod 2 ^ 32 → to_int x = to_int y.
Proof.
  intros Hxy. unfold to_int. f_equal.
  rewrite <- Zplus_mod_idemp_l. rewrite Hxy. by rewrite Zplus_mod_idemp_l.
Qed.

(** The [int] holds the true difference reduced modulo 2^32. *)
Lemma compute_diff_wraps totalIn totalOut fees :
  compute_diff totalIn totalOut fees = to_int (totalIn - totalOut - fees).
Proof.
  unfold compute_diff. apply to_int_congr. unfold u64.
  rewrite mod64_mod32. rewrite <- Zminus_mod_idemp_l. rewrite mod64_mod32.
  by rewrite Zminus_mod_idemp_l.
Qed.

(** It is the true difference only while that fits 32 bits. *)
Lemma compute_diff_exact totalIn totalOut fees :
  - 2 ^ 31 ≤ totalIn - totalOut - fees < 2 ^ 31 →
  compute_diff totalIn totalOut fees = totalIn - totalOut - fees.
Proof.
  intros Hr. rewrite compute_diff_wraps. unfold to_int.
  rewrite Z.mod_small; lia.
Qed.

(** Within that range, and with a balance that stays a [uint64_t], lines
    277-287 move the balance by exactly [diff]. *)
Lemma reconcile_adds_diff tx diff account account' c c' :
  reconcile tx diff account c = (inl account', c') →
  - 2 ^ 31 < diff < 2 ^ 31 →
  0 ≤ GetBalance (coin_symbol tx) account →
  GetBalance (coin_symbol tx) account + diff < 2 ^ 64 →
  GetBalance (coin_symbol tx) account'
  = GetBalance (coin_symbol tx) account + diff.
Proof.
  unfold reconcile, OperateBalance. intros Hrun Hd Hb Hmax.
  destruct (Z.ltb_spec diff 0) as [Hneg|Hnn].
  - assert (Habs : u64 (int_abs diff) = - diff).
    { unfold int_abs, to_int, u64. rewrite Z.abs_neq by lia.
      rewrite (Z.mod_small (- diff + 2 ^ 31)) by lia.
      rewrite Z.mod_small; lia. }
    rewrite Habs in Hrun.
    destruct (_ <? _); [discriminate|].
    injection Hrun as <- _. unfold GetBalance at 1, set_free. simpl.
    rewrite lookup_insert_eq. simpl. lia.
  - destruct (Z.ltb_spec 0 diff) as [Hpos|Hz].
    + injection Hrun as <- _. unfold GetBalance at 1, set_free. simpl.
      rewrite lookup_insert_eq. simpl. unfold u64.
      rewrite (Z.mod_small diff) by lia. rewrite Z.mod_small; lia.
    + injection Hrun as <- _. lia.
Qed.

Lemma reconcile_succeeds tx diff account c :
  - 2 ^ 31 < diff < 2 ^ 31 →
  0 ≤ GetBalance (coin_symbol tx) account + diff →
  ∃ account', reconcile tx diff account c = (inl account', c).
Proof.
  intros Hd Hb. unfold reconcile, OperateBalance.
  destruct (Z.ltb_spec diff 0) as [Hneg|Hnn].
  - assert (Habs : u64 (int_abs diff) = - diff).
    { unfold int_abs, to_int, u64. rewrite Z.abs_neq by lia.
      rewrite (Z.mod_small (- diff + 2 ^ 31)) by lia.
      rewrite Z.mod_small; lia. }
    rewrite Habs.
    destruct (Z.ltb_spec (GetBalance (coin_symbol tx) account) (- diff)); [lia|].
    by eexists.
  - destruct (0 <? diff); by eexists.
Qed.

(** *** The loops *)

(** The first input ends the input loop of [ExecuteTx]: its key is not in
    the UTXO Index, or the resolver answers [false] or throws, or the
    resolver answers [true] and line 255 reads the transaction through the
    pointer it has left null. Line 257, which removes the key, is not
    reached. *)
Lemma ExecuteTx_vins_first input rest total c :
  ExecuteTx_vins (input :: rest) total c
  = if bool_decide (input_key input ∈ utxos c)
    then if negb (IsTxIndex chain)
         then (inr (Return false),
               set_state c (state_DoS 100 REJECT_INVALID "failed-to-load-prev-utxo-err"
                              (pState c)))
         else match txIndex chain !! prev_utxo_txid input with
              | Some txPos =>
                  match blockFile chain !! txPos with
                  | Some _ => (inr (Crash NullDereference), c)
                  | None => (inr (Crash IOError), c)
                  end
              | None => (inr (Crash NullDereference), c)
              end
    else (inr (Return false),
          set_state c (state_DoS 100 REJECT_INVALID "double-spend-prev-utxo-err"
                         (pState c))).
Proof.
  cbn [ExecuteTx_vins]. unfold bind, GetUtxoTx, utxos.
  destruct (bool_decide (input_key input ∈ txUtxoCache (pCw c))); simpl; [|done].
  unfold GetUtxoTxFromChain.
  destruct (IsTxIndex chain); simpl; [|done].
  destruct (txIndex chain !! prev_utxo_txid input) as [pos|]; [|done].
  by destruct (blockFile chain !! pos).
Qed.

(** The input loop writes nothing, and gets through on the empty list
    only. *)
Lemma ExecuteTx_vins_effect ins t c r c' :
  ExecuteTx_vins ins t c = (r, c') →
  pCw c' = pCw c ∧ height c' = height c ∧ index c' = index c
  ∧ match r with
    | inl t' => ins = [] ∧ t' = t ∧ c' = c
    | inr e =>
        ∃ input rest,
          ins = input :: rest
          ∧ ((e = Return false ∧ (input_key input ∉ utxos c)
              ∧ rejected_with c c' REJECT_INVALID "double-spend-prev-utxo-err")
             ∨ (e = Return false ∧ input_key input ∈ utxos c
                ∧ rejected_with c c' REJECT_INVALID "failed-to-load-prev-utxo-err")
             ∨ ((e = Crash NullDereference ∨ e = Crash IOError)
                ∧ input_key input ∈ utxos c ∧ c' = c))
    end.
Proof.
  destruct ins as [|input rest]; [by intros [= <- <-]|].
  rewrite ExecuteTx_vins_first.
  destruct (bool_decide (input_key input ∈ utxos c)) eqn:Hk.
  - apply bool_decide_eq_true in Hk.
    destruct (negb (IsTxIndex chain)).
    { intros [= <- <-]. split_and!; try done.
      exists input, rest. split; [done|]. right; left. done. }
    destruct (txIndex chain !! prev_utxo_txid input) as [pos|].
    2:{ intros [= <- <-]. split_and!; try done.
        exists input, rest. split; [done|]. right; right. split_and!; auto. }
    destruct (blockFile chain !! pos); intros [= <- <-]; split_and!; try done;
      exists input, rest; (split; [done|]); right; right; split_and!; auto.
  - apply bool_decide_eq_false in Hk.
    intros [= <- <-]. split_and!; try done.
    exists input, rest. split; [done|]. left. done.
Qed.

(** The output loop inserts the keys [(hash, i)], [(hash, i+1)], ... of the
    outputs it gets through and touches nothing else; it stops at the
    first key the index refuses. *)
Lemma ExecuteTx_vouts_effect hash outs :
  ∀ i total c r c',
    ExecuteTx_vouts hash outs i total c = (r, c') →
    frame c c'
    ∧ match r with
      | inl t' =>
          pState c' = pState c
          ∧ utxos c' = list_to_set (output_keys hash i (length outs)) ∪ utxos c
          ∧ t' = fold_left (fun acc a => u64 (acc + a)) (output_amounts outs) total
      | inr e =>
          e = Return false
          ∧ rejected_with c c' REJECT_INVALID "set-utxo-err"
          ∧ ∃ j, (j < length outs)%nat
                 ∧ utxo_write_ok (hash, (i + j)%nat) = false
                 ∧ utxos c' = list_to_set (output_keys hash i j) ∪ utxos c
      end.
Proof.
  induction outs as [|output rest IH]; intros i total c r c' Hrun.
  - injection Hrun as <- <-. split; [apply frame_refl|].
    split_and!; try done. unfold output_keys. simpl. set_solver.
  - simpl in Hrun. unfold bind, SetUtxoTx in Hrun.
    destruct (utxo_write_ok (hash, i)) eqn:Hw; simpl in Hrun.
    + apply IH in Hrun as [Hfr Hr]. split.
      { eapply frame_trans; [|exact Hfr]. by repeat split. }
      destruct r as [t|e].
      * destruct Hr as (Hst & Hu & Ht). split_and!; [done| |done].
        rewrite Hu. unfold utxos, output_keys. simpl. set_solver.
      * destruct Hr as (He & Hst & j & Hj & Hwj & Hu). split_and!; [done|done|].
        exists (S j). split_and!; [simpl; lia| |].
        -- by replace (i + S j)%nat with (S i + j)%nat by lia.
        -- rewrite Hu. unfold utxos, output_keys. simpl. set_solver.
    + injection Hrun as <- <-. split; [apply frame_set_state|].
      split_and!; [done|done|].
      exists 0%nat. split_and!; [simpl; lia| |].
      * by rewrite Nat.add_0_r.
      * unfold utxos, output_keys. simpl. set_solver.
Qed.

Lemma ExecuteTx_vouts_runs hash outs :
  ∀ i t c,
    (∀ key, utxo_write_ok key = true) →
    ∃ t' c', ExecuteTx_vouts hash outs i t c = (inl t', c').
Proof.
  induction outs as [|output rest IH]; intros i t c Hw.
  - by exists t, c.
  - simpl. unfold bind, SetUtxoTx. rewrite Hw. simpl. by apply IH.
Qed.

(** *** The steps around the loops *)

Lemma GenerateRegID_eval uid account c :
  ∃ account', GenerateRegID uid account c = (inl (regid_step_ok uid, account'), c).
Proof.
  unfold GenerateRegID, regid_step_ok.
  destruct uid; try by eexists.
  destruct regid_assign_ok; by eexists.
Qed.

(** Step 1 binds an identity and touches neither the key nor the balances
    of the account. *)
Lemma GenerateRegID_keeps uid account c ok account' c' :
  GenerateRegID uid account c = (inl (ok, account'), c') →
  c' = c ∧ keyid account' = keyid account ∧ free_amount account' = free_amount account.
Proof.
  unfold GenerateRegID. destruct uid; try (by intros [= <- <- <-]).
  destruct regid_assign_ok; simpl; by intros [= <- <- <-].
Qed.

Lemma reconcile_cases tx diff account c :
  (∃ account', reconcile tx diff account c = (inl account', c))
  ∨ reconcile tx diff account c
    = (inr (Return false),
       set_state c (state_DoS 100 UPDATE_ACCOUNT_FAIL "insufficient-fund-utxo" (pState c))).
Proof.
  unfold reconcile.
  destruct (diff <? 0).
  - destruct (OperateBalance _ _ _ _); [left; by eexists | by right].
  - destruct (0 <? diff); [|left; by eexists].
    destruct (OperateBalance _ _ _ _); [left; by eexists | by right].
Qed.

Lemma reconcile_keeps tx diff account account' c c' :
  reconcile tx diff account c = (inl account', c') →
  c' = c ∧ keyid account' = keyid account.
Proof.
  unfold reconcile, OperateBalance.
  destruct (diff <? 0).
  - destruct (_ <? _); [discriminate|]. by intros [= <- <-].
  - destruct (0 <? diff); by intros [= <- <-].
Qed.

(** *** One call of [ExecuteTx], by the way it ends *)

Lemma ExecuteTx_effect tx c e c' :
  run (ExecuteTx tx) c = (e, c') →
  let totalOut := u64 (sum_amounts (output_amounts (vouts tx))) in
  let diff := compute_diff 0 totalOut (llFees tx) in
  height c' = height c ∧ index c' = index c
  ∧ match e with
    | Return true =>
        vins tx = []
        ∧ regid_step_ok (txUid tx) = true
        ∧ pState c' = pState c
        ∧ registered tx c c' (length (vouts tx))
        ∧ ∃ loaded bound saved c2,
            accounts c !! txUid tx = Some loaded
            ∧ keyid bound = keyid loaded ∧ free_amount bound = free_amount loaded
            ∧ reconcile tx diff bound c2 = (inl saved, c2)
            ∧ u64 (totalOut + llFees tx) ≤ u64 (GetBalance (coin_symbol tx) bound)
            ∧ accounts c' = <[keyid saved := saved]> (accounts c)
            ∧ ∃ c3, SetTxReceipts (GetHash tx) [transfer_receipt tx diff] c3
                    = (inl true, c')
                    ∧ receipts_of c3 = receipts_of c
    | Return false =>
        receipts_of c' = receipts_of c
        ∧ ((pCw c' = pCw c
            ∧ (pState c' = pState c
               ∨ rejected_with c c' READ_ACCOUNT_FAIL "bad-read-accountdb"
               ∨ rejected_with c c' REJECT_INVALID "double-spend-prev-utxo-err"
               ∨ rejected_with c c' REJECT_INVALID "failed-to-load-prev-utxo-err"))
           ∨ (rejected_with c c' REJECT_INVALID "set-utxo-err"
              ∧ accounts c' = accounts c
              ∧ ∃ j, (j < length (vouts tx))%nat
                     ∧ utxo_write_ok (GetHash tx, j) = false
                     ∧ registered tx c c' j)
           ∨ ((rejected_with c c' REJECT_INVALID "insufficient-account-coin-amount"
               ∨ rejected_with c c' UPDATE_ACCOUNT_FAIL "insufficient-fund-utxo"
               ∨ rejected_with c c' UPDATE_ACCOUNT_FAIL "bad-read-accountdb")
              ∧ accounts c' = accounts c
              ∧ registered tx c c' (length (vouts tx)))
           ∨ (rejected_with c c' REJECT_INVALID "set-tx-receipt-failed"
              ∧ (∃ account, accounts c' = <[keyid account := account]> (accounts c))
              ∧ registered tx c c' (length (vouts tx))))
    | Crash f =>
        vins tx ≠ [] ∧ c' = c ∧ (f = NullDereference ∨ f = IOError)
    | Undefined _ => False
    end.
Proof.
  intros Hrun totalOut diff. revert Hrun.
  unfold run, ExecuteTx, bind, GetAccount. simpl.
  destruct (accountCache (pCw c) !! txUid tx) as [a0|] eqn:Hacc.
  2:{ intros [= <- <-]. split_and!; try done. left. split; [done|]. right; left. done. }
  destruct (GenerateRegID_eval (txUid tx) a0 c) as [a1 Hgen]. rewrite Hgen.
  apply GenerateRegID_keeps in Hgen as (_ & Hk1 & Hf1). simpl.
  destruct (regid_step_ok (txUid tx)) eqn:Hreg; simpl.
  2:{ intros [= <- <-]. split_and!; try done. left. split; [done|]. by left. }
  destruct (ExecuteTx_vins (vins tx) 0 c) as [r1 c1] eqn:Hins.
  apply ExecuteTx_vins_effect in Hins as (Hcw1 & Hh1 & Hi1 & Hr1).
  destruct r1 as [tin|e1].
  2:{ destruct Hr1 as (input & rest & Hv & Hcase). intros [= <- <-].
      destruct Hcase as [(-> & Hk & Hst)|[(-> & Hk & Hst)|(Hf & Hk & ->)]].
      - split_and!; try done; [unfold receipts_of; by rewrite Hcw1|].
        left. split; [done|]. right; right; left. done.
      - split_and!; try done; [unfold receipts_of; by rewrite Hcw1|].
        left. split; [done|]. right; right; right. done.
      - destruct Hf as [-> | ->]; split_and!; try done; try (by rewrite Hv); auto. }
  destruct Hr1 as (Hv & -> & ->).
  destruct (ExecuteTx_vouts (GetHash tx) (vouts tx) 0 0 c) as [r2 c2] eqn:Houts.
  apply ExecuteTx_vouts_effect in Houts as [(Hh2 & Hi2 & Ha2 & Hrc2) Hr2].
  destruct r2 as [tout|e2].
  2:{ destruct Hr2 as (-> & Hst & j & Hj & Hw & Hu). intros [= <- <-].
      split_and!; try done. right; left. split_and!; try done.
      exists j. split_and!; done. }
  destruct Hr2 as (Hst2 & Hu2 & ->).
  rewrite fold_u64_sum by done. rewrite Z.add_0_l, Z.add_0_r. fold totalOut.
  assert (Hlate : ∀ rc reason c0,
    c0 = set_state c2 (state_DoS 100 rc reason (pState c2)) →
    (rc = REJECT_INVALID ∧ reason = "insufficient-account-coin-amount")
    ∨ (rc = UPDATE_ACCOUNT_FAIL ∧ reason = "insufficient-fund-utxo")
    ∨ (rc = UPDATE_ACCOUNT_FAIL ∧ reason = "bad-read-accountdb") →
    height c0 = height c ∧ index c0 = index c
    ∧ receipts_of c0 = receipts_of c
    ∧ ((pCw c0 = pCw c
        ∧ (pState c0 = pState c
           ∨ rejected_with c c0 READ_ACCOUNT_FAIL "bad-read-accountdb"
           ∨ rejected_with c c0 REJECT_INVALID "double-spend-prev-utxo-err"
           ∨ rejected_with c c0 REJECT_INVALID "failed-to-load-prev-utxo-err"))
       ∨ (rejected_with c c0 REJECT_INVALID "set-utxo-err"
          ∧ accounts c0 = accounts c
          ∧ ∃ j, (j < length (vouts tx))%nat
                 ∧ utxo_write_ok (GetHash tx, j) = false
                 ∧ registered tx c c0 j)
       ∨ ((rejected_with c c0 REJECT_INVALID "insufficient-account-coin-amount"
           ∨ rejected_with c c0 UPDATE_ACCOUNT_FAIL "insufficient-fund-utxo"
           ∨ rejected_with c c0 UPDATE_ACCOUNT_FAIL "bad-read-accountdb")
          ∧ accounts c0 = accounts c
          ∧ registered tx c c0 (length (vouts tx)))
       ∨ (rejected_with c c0 REJECT_INVALID "set-tx-receipt-failed"
          ∧ (∃ account, accounts c0 = <[keyid account := account]> (accounts c))
          ∧ registered tx c c0 (length (vouts tx))))).
  { intros rc reason c0 -> Hwhich.
    split_and!; try done. right; right; left.
    split_and!; try done.
    unfold rejected_with. simpl. rewrite Hst2.
    destruct Hwhich as [[-> ->]|[[-> ->]|[-> ->]]]; auto. }
  destruct (Z.ltb_spec (u64 (GetBalance (coin_symbol tx) a1)) (u64 (totalOut + llFees tx)))
    as [|Hbal].
  { intros [= <- <-]. eapply Hlate; [done|]. by left. }
  fold diff.
  destruct (reconcile_cases tx diff a1 c2) as [[a2 Hrec]| Hrec]; rewrite Hrec.
  2:{ intros [= <- <-]. eapply Hlate; [done|]. right; by left. }
  unfold SaveAccount.
  destruct (account_write_ok a2); simpl.
  2:{ intros [= <- <-]. eapply Hlate; [done|]. right; by right. }
  unfold SetTxReceipts at 1.
  destruct (receipt_write_ok (GetHash tx)) eqn:Hwr; simpl; intros [= <- <-].
  - split_and!; try done.
    exists a0, a1, a2, c2. split_and!; try done.
    + unfold accounts in *. simpl. by rewrite Ha2.
    + exists (set_cw c2 {| accountCache := <[keyid a2 := a2]> (accountCache (pCw c2));
                           txUtxoCache := txUtxoCache (pCw c2);
                           txReceiptCache := txReceiptCache (pCw c2) |}).
      split; [|done].
      unfold SetTxReceipts. rewrite Hwr. reflexivity.
  - split_and!; try done. right; right; right.
    split_and!; try done.
    + unfold rejected_with. simpl. by rewrite Hst2.
    + exists a2. unfold accounts in *. simpl. by rewrite Ha2.
Qed.

End Execution.

Section Ledger.
Context `{E : Collaborators}.



(** C6: a transaction with an input never executes successfully, so there
    is no second execution of one. When the sender account loads, the key
    of the first input is unspent, indexing is enabled and the referenced
    transaction is readable or not indexed, the resolver answers [true]
    without handing the transaction back and line 255 reads through the
    null pointer; nothing has been written. *)
Theorem ExecuteTx_with_input_never_succeeds (tx : CCoinUtxoTx) (c : CTxExecuteContext)
    input rest :
  vins tx = input :: rest →
  (run (ExecuteTx tx) c).1 ≠ Return true
  ∧ (is_Some (accounts c !! txUid tx) →
     regid_step_ok (txUid tx) = true →
     input_key input ∈ utxos c →
     IsTxIndex chain = true →
     (∀ txPos, txIndex chain !! prev_utxo_txid input = Some txPos →
               is_Some (blockFile chain !! txPos)) →
     run (ExecuteTx tx) c = (Crash NullDereference, c)).
Proof.
  intros Hv. split.
  - destruct (run (ExecuteTx tx) c) as [e c'] eqn:Hrun. simpl. intros ->.
    pose proof (ExecuteTx_effect tx c _ c' Hrun) as Heff. cbv zeta in Heff.
    destruct Heff as (_ & _ & Hnone & _). congruence.
  - intros [a0 Hacc] Hreg Hk Hidx Hread.
    unfold run, ExecuteTx, bind, GetAccount. simpl.
    unfold accounts in Hacc. rewrite Hacc.
    destruct (GenerateRegID_eval (txUid tx) a0 c) as [a1 ->]. simpl.
    rewrite Hreg. simpl. rewrite Hv.
    rewrite ExecuteTx_vins_first.
    rewrite bool_decide_eq_true_2 by exact Hk. rewrite Hidx. simpl.
    destruct (txIndex chain !! prev_utxo_txid input) as [pos|] eqn:Hpos; [|done].
    by destruct (Hread pos eq_refl) as [prevTx ->].
Qed.


(** X10: a transaction whose first input names a key that is not in the
    UTXO Index is rejected by [ExecuteTx] with
    "double-spend-prev-utxo-err" (when the sender account loads and step 1
    goes through), and the ledger is as it was. *)
Theorem ExecuteTx_absent_key_is_double_spend (tx : CCoinUtxoTx)
    (c : CTxExecuteContext) input rest :
  vins tx = input :: rest →
  is_Some (accounts c !! txUid tx) →
  regid_step_ok (txUid tx) = true →
  input_key input ∉ utxos c →
  rejects_with (ExecuteTx tx) c REJECT_INVALID "double-spend-prev-utxo-err".
Proof.
  intros Hv [a0 Hacc] Hreg Hk.
  unfold rejects_with, ExecuteTx, bind, GetAccount. simpl.
  unfold accounts in Hacc. rewrite Hacc.
  destruct (GenerateRegID_eval (txUid tx) a0 c) as [a1 ->]. simpl.
  rewrite Hreg. simpl. rewrite Hv.
  rewrite ExecuteTx_vins_first.
  by rewrite bool_decide_eq_false_2 by exact Hk.
Qed.

(** X11: a successful execution leaves the validation state, the height
    and the index as they were, and its last write hands the receipt
    store, under the transaction's id, exactly one receipt: from the
    sender to the legacy [utxo.to_uid], in [utxo.coin_symbol], of kind
    TRANSFER_UTXO_COINS, for the magnitude of the 32-bit difference. The
    receipt store has not been written before that. *)
Theorem ExecuteTx_success_receipt (tx : CCoinUtxoTx) (c c' : CTxExecuteContext) :
  run (ExecuteTx tx) c = (Return true, c') →
  let diff := compute_diff 0 (u64 (sum_amounts (output_amounts (vouts tx))))
                (llFees tx) in
  (∃ c3, SetTxReceipts (GetHash tx) [transfer_receipt tx diff] c3 = (inl true, c')
         ∧ receipts_of c3 = receipts_of c)
  ∧ pState c' = pState c ∧ height c' = height c ∧ index c' = index c.
Proof.
  intros Hrun diff.
  pose proof (ExecuteTx_effect tx c _ c' Hrun) as Heff. cbv zeta in Heff.
  destruct Heff as (Hh & Hi & _ & _ & Hst & _ & a0 & a1 & a2 & c2 & Heff).
  destruct Heff as (_ & _ & _ & _ & _ & _ & Hrc).
  split_and!; done.
Qed.

(** X12: the balance equation holds whenever nothing wraps. If the
    execution succeeds (it has then consumed no input), the sender's
    account is stored under the sender's identity, the sum of the output
    amounts fits a [uint64_t], that sum plus the fee fits the 32-bit
    [int], and the balance is a [uint64_t], then
    balanceBefore = totalOut + fee + balanceAfter. *)
Theorem ExecuteTx_balance_equation_in_range (tx : CCoinUtxoTx)
    (c c' : CTxExecuteContext) (loaded : CAccount) :
  run (ExecuteTx tx) c = (Return true, c') →
  accounts c !! txUid tx = Some loaded →
  keyid loaded = txUid tx →
  let totalOut := sum_amounts (output_amounts (vouts tx)) in
  0 ≤ totalOut →
  0 ≤ llFees tx →
  totalOut + llFees tx < 2 ^ 31 →
  0 ≤ sender_free_balance tx c < 2 ^ 64 →
  sender_free_balance tx c
  = totalOut + llFees tx + sender_free_balance tx c'.
Proof.
  intros Hrun Hacc Hkey totalOut Hout Hfee Hdiff Hb.
  pose proof (ExecuteTx_effect tx c _ c' Hrun) as Heff. cbv zeta in Heff.
  destruct Heff as (_ & _ & _ & _ & _ & _ & a0 & a1 & a2 & c2 & Heff).
  destruct Heff as (Hacc' & Hk1 & Hf1 & Hrec & _ & Hsave & _).
  rewrite Hacc in Hacc'. injection Hacc' as <-.
  fold totalOut in Hrec.
  assert (Hwo : u64 totalOut = totalOut) by (unfold u64; apply Z.mod_small; lia).
  rewrite Hwo in Hrec.
  rewrite compute_diff_exact in Hrec by lia.
  unfold sender_free_balance in *. rewrite Hacc in *. simpl in *.
  assert (Hbal1 : GetBalance (coin_symbol tx) a1 = GetBalance (coin_symbol tx) loaded).
  { unfold GetBalance. by rewrite Hf1. }
  pose proof (reconcile_keeps _ _ _ _ _ _ Hrec) as [_ Hk2].
  apply reconcile_adds_diff in Hrec; [|lia|lia|lia].
  rewrite Hsave.
  assert (keyid a2 = txUid tx) as -> by congruence.
  rewrite lookup_insert_eq. simpl. lia.
Qed.


(** X16: a successful execution changes the UTXO Index at the keys of its
    outputs only: any other key is unspent afterwards exactly when it was
    unspent before. *)
Theorem ExecuteTx_success_other_keys_untouched (tx : CCoinUtxoTx)
    (c c' : CTxExecuteContext) (key : TxID * nat) :
  run (ExecuteTx tx) c = (Return true, c') →
  key ∉ output_keys (GetHash tx) 0 (length (vouts tx)) →
  key ∈ utxos c' ↔ key ∈ utxos c.
Proof.
  intros Hrun Hout.
  pose proof (ExecuteTx_effect tx c _ c' Hrun) as Heff. cbv zeta in Heff.
  destruct Heff as (_ & _ & _ & _ & _ & Hu & _).
  unfold registered in Hu.
  rewrite Hu, elem_of_union, !elem_of_list_to_set.
  split; [intros [?|?]; done | intros ?; by right].
Qed.

(** X15: validation and execution compose. A transaction that [CheckTx]
    accepts executes successfully on the same ledger when step 1 goes
    through, the stores accept the writes, and nothing wraps: the amounts
    and the fee are not negative, the outputs plus the fee fit the 32-bit
    [int], and the balance is a [uint64_t]. *)
Theorem accepted_transaction_executes (tx : CCoinUtxoTx) (c cv : CTxExecuteContext) :
  run (CheckTx tx) c = (Return true, cv) →
  regid_step_ok (txUid tx) = true →
  (∀ key, utxo_write_ok key = true) →
  (∀ account, account_write_ok account = true) →
  receipt_write_ok (GetHash tx) = true →
  let totalOut := sum_amounts (output_amounts (vouts tx)) in
  0 ≤ totalOut → 0 ≤ llFees tx →
  totalOut + llFees tx < 2 ^ 31 →
  0 ≤ sender_free_balance tx c < 2 ^ 64 →
  ∃ c', run (ExecuteTx tx) c = (Return true, c').
Proof.
  intros Hcheck Hreg Hwu Hwa Hwr totalOut Ho0 Hf0 Hdiff Hb.
  apply CheckTx_accept_inv in Hcheck as (Hv & (loaded & Hacc & Hbal & _) & _).
  unfold sender_free_balance in Hb. rewrite Hacc in Hb. simpl in Hb.
  fold totalOut in Hbal.
  assert (Hwo : u64 totalOut = totalOut) by (unfold u64; apply Z.mod_small; lia).
  rewrite Hwo in Hbal. unfold u64 in Hbal.
  rewrite !Z.mod_small in Hbal by lia.
  unfold run, ExecuteTx, bind, GetAccount. simpl.
  unfold accounts in Hacc. rewrite Hacc.
  destruct (GenerateRegID_eval (txUid tx) loaded c) as [a1 Hgen]. rewrite Hgen.
  apply GenerateRegID_keeps in Hgen as (_ & Hk1 & Hf1). simpl.
  rewrite Hreg, Hv. simpl.
  destruct (ExecuteTx_vouts_runs (GetHash tx) (vouts tx) 0%nat 0 c Hwu)
    as (tout & c2 & Houts).
  rewrite Houts.
  apply ExecuteTx_vouts_effect in Houts as (_ & _ & _ & ->).
  rewrite fold_u64_sum by done. rewrite Z.add_0_l, Z.add_0_r.
  fold totalOut. rewrite Hwo.
  assert (Hb1 : GetBalance (coin_symbol tx) a1 = GetBalance (coin_symbol tx) loaded).
  { unfold GetBalance. by rewrite Hf1. }
  rewrite Hb1. unfold u64 at 1 2. rewrite !Z.mod_small by lia.
  destruct (Z.ltb_spec (GetBalance (coin_symbol tx) loaded) (totalOut + llFees tx));
    [lia|].
  rewrite compute_diff_exact by lia.
  destruct (reconcile_succeeds tx (0 - totalOut - llFees tx) a1 c2)
    as [a2 ->]; [lia | rewrite Hb1; lia |].
  unfold SaveAccount. rewrite Hwa. simpl.
  unfold SetTxReceipts. rewrite Hwr. simpl. by eexists.
Qed.

(** X17: [ExecuteTx] never removes an entry of the UTXO Index: however a
    call ends, every key that was unspent before it is unspent after it.
    The removal of line 257 comes after the read through the null pointer
    of line 255. *)
Theorem ExecuteTx_never_removes (tx : CCoinUtxoTx) (c : CTxExecuteContext) :
  utxos c ⊆ utxos (run (ExecuteTx tx) c).2.
Proof.
  destruct (run (ExecuteTx tx) c) as [e c'] eqn:Hrun. simpl.
  pose proof (ExecuteTx_effect tx c _ c' Hrun) as Heff. cbv zeta in Heff.
  destruct Heff as (_ & _ & Heff).
  destruct e as [[]|f|u].
  - destruct Heff as (_ & _ & _ & Hu & _). unfold registered in Hu. set_solver.
  - destruct Heff as (_ & [[Hcw _]|[(_ & _ & j & _ & _ & Hu)|[(_ & _ & Hu)|(_ & _ & Hu)]]]);
      unfold registered, utxos in *; [rewrite Hcw| | |]; set_solver.
  - by destruct Heff as (_ & -> & _).
  - done.
Qed.

End Ledger.

(** ** The properties above on the concrete ledger *)


Lemma ExecuteTx_with_input_never_succeeds_witness :
  let c := Scenario.ctx 20 1000000 in
  (run (ExecuteTx (E := Scenario.world) Scenario.pay) c).1 ≠ Return true
  ∧ run (ExecuteTx (E := Scenario.world) Scenario.pay) c = (Crash NullDereference, c).
Proof.
  intros c.
  destruct (ExecuteTx_with_input_never_succeeds (E := Scenario.world) Scenario.pay c
              Scenario.spend_prior [] eq_refl) as [Hnever Hnull].
  split; [exact Hnever|]. apply Hnull.
  - exists (Scenario.acct 1000000). vm_compute. reflexivity.
  - reflexivity.
  - refine (bool_decide_unpack _ _). vm_compute. exact I.
  - reflexivity.
  - intros txPos Hpos. vm_compute in Hpos. injection Hpos as <-.
    exists Scenario.prior. vm_compute. reflexivity.
Defined.



(** C2: the net difference is cut down to a 32-bit [int]. [mint] passes
    [CheckTx] and executes; its true difference is -2^32, the [int] holds
    0, no balance is deducted, and the balance equation fails by 2^32. *)
Theorem ExecuteTx_diff_is_truncated :
  let c := Scenario.ctx 20 (2 ^ 33) in
  let c' := (run (ExecuteTx (E := Scenario.world) Scenario.mint) c).2 in
  let totalIn := 0 in
  let totalOut := 2 ^ 32 - 10000 in
  let fee := llFees Scenario.mint in
  run (CheckTx (E := Scenario.world) Scenario.mint) c = (Return true, c)
  ∧ (run (ExecuteTx (E := Scenario.world) Scenario.mint) c).1 = Return true
  ∧ totalIn - totalOut - fee = - 2 ^ 32
  ∧ compute_diff totalIn totalOut fee = 0
  ∧ sender_free_balance Scenario.mint c = 2 ^ 33
  ∧ sender_free_balance Scenario.mint c' = 2 ^ 33
  ∧ totalIn + sender_free_balance Scenario.mint c
    ≠ totalOut + fee + sender_free_balance Scenario.mint c'.
Proof.
  intros c c' totalIn totalOut fee.
  assert (Hb : sender_free_balance Scenario.mint c = 2 ^ 33) by (vm_compute; reflexivity).
  assert (Ha : sender_free_balance Scenario.mint c' = 2 ^ 33) by (vm_compute; reflexivity).
  split_and!.
  - vm_compute. reflexivity.
  - vm_compute. reflexivity.
  - reflexivity.
  - reflexivity.
  - exact Hb.
  - exact Ha.
  - rewrite Hb, Ha. vm_compute. discriminate.
Qed.

(** The example of the specification does not run: it has an input, and
    line 255 reads the prior transaction through the null pointer. *)
Example spec_example_does_not_run :
  let c := Scenario.ctx 20 1000 in
  run (ExecuteTx (E := Scenario.world) Scenario.spec_example) c
  = (Crash NullDereference, c).
Proof. vm_compute. reflexivity. Qed.

(** Without the input it runs: the difference is -450, the balance goes
    from 1000 to 550 and both new keys are registered next to the one
    that was there. *)
Example deposit_executes :
  let c := Scenario.ctx 20 1000 in
  let c' := (run (ExecuteTx (E := Scenario.world) Scenario.deposit) c).2 in
  run (ExecuteTx (E := Scenario.world) Scenario.deposit) c = (Return true, c')
  ∧ compute_diff 0 400 50 = -450
  ∧ sender_free_balance Scenario.deposit c' = 550
  ∧ utxos c' = {[ (7, 0%nat); (1020, 0%nat); (1020, 1%nat) ]}.
Proof. split_and!; vm_compute; reflexivity. Qed.

Lemma P2SA_input_rule_witness :
  rejects_with (CheckUtxoCondition (E := Scenario.world) true (CRegID 2) Scenario.sender
                  Scenario.spend_prior (Scenario.owned_by (CRegID 9)))
    (Scenario.ctx 20 0) REJECT_INVALID "uid-mismatches-err"
  ∧ CRegID 9 ≠ Scenario.sender.
Proof.
  split; [|discriminate].
  apply (P2SA_input_rule (E := Scenario.world) (Scenario.ctx 20 0) (CRegID 2)
           Scenario.sender Scenario.spend_prior (CRegID 9)).
  discriminate.
Defined.

Lemma output_side_rules_witness :
  rejects_with (CheckUtxoCondition (E := Scenario.world) false CNullID Scenario.sender
                  (mkInput 0 0 []) (Scenario.owned_by CNullID))
    (Scenario.ctx 20 0) REJECT_INVALID "uid-empty-err"
  ∧ rejects_with (CheckUtxoCondition (E := Scenario.world) false CNullID Scenario.sender
                    (mkInput 0 0 []) (Scenario.claim_lock 0))
      (Scenario.ctx 20 0) REJECT_INVALID "claim-lock-empty-err".
Proof.
  destruct (output_side_rules (E := Scenario.world) (Scenario.ctx 20 0) CNullID
              Scenario.sender (mkInput 0 0 [])) as (Hsa & _ & _ & Hcl & _).
  split.
  - apply (Hsa CNullID). reflexivity.
  - exact Hcl.
Defined.

Lemma P2PH_input_rule_witness :
  rejects_with (CheckUtxoCondition (E := Scenario.world) true (CRegID 2) Scenario.sender
                  Scenario.spend_prior (mkCond P2PH (CPasswordHashLockCondOut 4)))
    (Scenario.ctx 20 0) REJECT_INVALID "cond-mismatches-err"
  ∧ CheckUtxoCondition (E := Scenario.world) true (CRegID 2) Scenario.sender
      Cases.with_proof (mkCond P2PH (CPasswordHashLockCondOut 4)) (Scenario.ctx 20 0)
    = (inr (Crash BadCast), Scenario.ctx 20 0).
Proof.
  split.
  - destruct (P2PH_input_rule (E := Scenario.world) (Scenario.ctx 20 0) (CRegID 2)
                Scenario.sender Scenario.spend_prior 4) as [Hnone _].
    apply Hnone. intros cond Hin. by apply elem_of_nil in Hin.
  - destruct (P2PH_input_rule (E := Scenario.world) (Scenario.ctx 20 0) (CRegID 2)
                Scenario.sender Cases.with_proof 4) as [_ Hsome].
    apply Hsome. eexists. split; [by apply list_elem_of_singleton|reflexivity].
Defined.

Lemma class_mismatch_throws_witness :
  CheckUtxoCondition (E := Scenario.world) false CNullID Scenario.sender (mkInput 0 0 [])
    Cases.mislabelled (Scenario.ctx 20 0)
  = (inr (Crash BadCast), Scenario.ctx 20 0)
  ∧ CheckTx_conds (E := Scenario.world) false CNullID Scenario.sender (mkInput 0 0 [])
      [Cases.mislabelled] (Scenario.ctx 20 0)
    = (inr (Crash BadCast), Scenario.ctx 20 0).
Proof.
  apply (class_mismatch_throws (E := Scenario.world) (Scenario.ctx 20 0) false CNullID
           Scenario.sender (mkInput 0 0 []) Cases.mislabelled []).
  reflexivity.
Defined.

Lemma CheckTx_accept_sound_witness :
  vins Scenario.odd = []
  ∧ (0 < length (vouts Scenario.odd) ≤ 100)%nat
  ∧ Forall (fun output => coin_amount output ≠ 0
                          ∧ forallb unknown_tag (out_conds output) = true)
      (vouts Scenario.odd).
Proof.
  destruct (CheckTx_accept_sound (E := Scenario.world) Scenario.odd
              (Scenario.ctx 20 1000000)
              (run (CheckTx (E := Scenario.world) Scenario.odd) (Scenario.ctx 20 1000000)).2)
    as (Hv & _ & Hn & _ & Hout).
  - vm_compute. reflexivity.
  - done.
Defined.

Lemma CheckTx_input_reads_null_witness :
  let c := Scenario.ctx 20 1000000 in
  (run (CheckTx (E := Scenario.world) Scenario.pay) c).1 ≠ Return true
  ∧ run (CheckTx (E := Scenario.world) Scenario.pay) c = (Crash NullDereference, c).
Proof.
  intros c.
  destruct (CheckTx_input_reads_null (E := Scenario.world) Scenario.pay c
              Scenario.spend_prior [] eq_refl) as [Hnever Hnull].
  split; [exact Hnever|]. apply Hnull.
  - exists (Scenario.acct 1000000). reflexivity.
  - exists (). reflexivity.
  - exists (). reflexivity.
  - reflexivity.
  - intros txPos Hpos. vm_compute in Hpos. injection Hpos as <-.
    exists Scenario.prior. vm_compute. reflexivity.
Defined.

Lemma ExecuteTx_absent_key_is_double_spend_witness :
  let c := with_utxos (Scenario.ctx 20 1000000) ∅ in
  rejects_with (ExecuteTx (E := Scenario.world) Scenario.pay) c
    REJECT_INVALID "double-spend-prev-utxo-err"
  ∧ input_key Scenario.spend_prior ∉ utxos c.
Proof.
  intros c.
  assert (Habsent : input_key Scenario.spend_prior ∉ utxos c).
  { refine (bool_decide_unpack _ _). vm_compute. exact I. }
  split; [|exact Habsent].
  apply (ExecuteTx_absent_key_is_double_spend (E := Scenario.world) Scenario.pay c
           Scenario.spend_prior []).
  - reflexivity.
  - exists (Scenario.acct 1000000). vm_compute. reflexivity.
  - reflexivity.
  - exact Habsent.
Defined.

Lemma ExecuteTx_success_receipt_witness :
  let c := Scenario.ctx 20 1000000 in
  let c' := (run (ExecuteTx (E := Scenario.world) Scenario.plain) c).2 in
  (∃ c3, SetTxReceipts (E := Scenario.world)
           (GetHash (Collaborators := Scenario.world) Scenario.plain)
           [transfer_receipt Scenario.plain
              (compute_diff 0 (u64 (sum_amounts (output_amounts (vouts Scenario.plain))))
                 (llFees Scenario.plain))] c3
         = (inl true, c')
         ∧ receipts_of c3 = receipts_of c)
  ∧ pState c' = pState c ∧ height c' = height c ∧ index c' = index c.
Proof.
  intros c c'.
  apply (ExecuteTx_success_receipt (E := Scenario.world) Scenario.plain c c').
  vm_compute. reflexivity.
Defined.

Lemma ExecuteTx_balance_equation_in_range_witness :
  let c := Scenario.ctx 20 1000 in
  let c' := (run (ExecuteTx (E := Scenario.world) Scenario.deposit) c).2 in
  sender_free_balance Scenario.deposit c
  = sum_amounts (output_amounts (vouts Scenario.deposit))
    + llFees Scenario.deposit + sender_free_balance Scenario.deposit c'.
Proof.
  intros c c'.
  apply (ExecuteTx_balance_equation_in_range (E := Scenario.world) Scenario.deposit
           c c' (Scenario.acct 1000)).
  - vm_compute. reflexivity.
  - vm_compute. reflexivity.
  - reflexivity.
  - vm_compute. discriminate.
  - vm_compute. discriminate.
  - vm_compute. reflexivity.
  - vm_compute. split; [discriminate | reflexivity].
Defined.


Lemma accepted_transaction_executes_witness :
  ∃ c', run (ExecuteTx (E := Scenario.world) Scenario.plain) (Scenario.ctx 20 1000000)
        = (Return true, c').
Proof.
  apply (accepted_transaction_executes (E := Scenario.world) Scenario.plain
           (Scenario.ctx 20 1000000)
           (run (CheckTx (E := Scenario.world) Scenario.plain) (Scenario.ctx 20 1000000)).2).
  - vm_compute. reflexivity.
  - reflexivity.
  - intros key. reflexivity.
  - intros account. reflexivity.
  - reflexivity.
  - vm_compute. discriminate.
  - vm_compute. discriminate.
  - vm_compute. reflexivity.
  - vm_compute. split; [discriminate | reflexivity].
Defined.

Lemma ExecuteTx_success_other_keys_untouched_witness :
  let c := Scenario.ctx 20 1000000 in
  let c' := (run (ExecuteTx (E := Scenario.world) Scenario.plain) c).2 in
  (7, 0%nat) ∈ utxos c' ↔ (7, 0%nat) ∈ utxos c.
Proof.
  intros c c'.
  apply (ExecuteTx_success_other_keys_untouched (E := Scenario.world) Scenario.plain c c'
           (7, 0%nat)).
  - vm_compute. reflexivity.
  - intros Hin. apply list_elem_of_singleton in Hin. discriminate Hin.
Defined.
